(** * gravitysim: the N-body core of [app.py]

    A shallow embedding of the physics core of [app.py] (the force solver
    [calculate_forces], [Body.update_state], [Trail.set_pos] and the batch
    loop of [MainWidget.on_update]) and the properties of its specification.

    Numbers.  numpy's float64 values and Python's numbers are modelled as
    real numbers: arithmetic is exact.  The program takes two quotients,
    by [dist ** 2] and by [mass]; numpy evaluates a quotient by zero to
    inf or nan, with a warning and without raising.  The functions are
    embedded twice.  [pair_force], [calculate_forces], [update_state],
    [simulation_step] and [advance] use the total division of the real
    numbers of Rocq: they agree with the program wherever the positions
    differ and the masses are not zero, and serve for what does not
    depend on the value of a quotient.  [pair_force_real],
    [calculate_forces_real], [update_state_real], [simulation_step_real]
    and [advance_real] are the same code with every quotient taken by
    [quotient], which has no value at a zero divisor: they return [None]
    where the program goes on with inf or nan.

    Objects.  A list of bodies is a list of distinct Python objects; the
    dictionary [forces] of [calculate_forces], keyed by object, is keyed
    here by the index of the object in the list.

    Errors.  The only exception the modelled code could raise is the
    IndexError of a list access; fallible functions return [option].  In
    the functions named [_real], [None] is also a quotient by zero. *)

From Stdlib Require Import Reals Lra Lia List ZArith Bool.
Import ListNotations.

Local Open Scope R_scope.

(** ** Python lists and ranges *)

Module Py.

(** The error monad: [None] is a raised IndexError. *)
Definition bind {A B : Type} (m : option A) (k : A -> option B) : option B :=
  match m with
  | Some a => k a
  | None => None
  end.

Notation "x <- m ;; k" := (bind m (fun x => k))
  (at level 61, m at next level, right associativity).

(** [for x in xs: body], threading the state and stopping at an error. *)
Fixpoint for_each {A S : Type} (xs : list A) (body : A -> S -> option S)
    (s : S) : option S :=
  match xs with
  | [] => Some s
  | x :: xs' => s' <- body x s ;; for_each xs' body s'
  end.

(** [range(lo, hi)] *)
Definition range (lo hi : Z) : list Z :=
  map (fun k => (lo + Z.of_nat k)%Z) (seq 0 (Z.to_nat (hi - lo))).

(** The position an index denotes in a list of length [len]: a negative
    index counts from the end, anything outside raises. *)
Definition index (len : nat) (i : Z) : option nat :=
  if (0 <=? i)%Z then
    if (i <? Z.of_nat len)%Z then Some (Z.to_nat i) else None
  else
    if (- Z.of_nat len <=? i)%Z then Some (Z.to_nat (Z.of_nat len + i))
    else None.

Fixpoint update {A : Type} (k : nat) (x : A) (l : list A) : list A :=
  match l, k with
  | [], _ => []
  | _ :: l', O => x :: l'
  | y :: l', S k' => y :: update k' x l'
  end.

(** [l[i]] *)
Definition getitem {A : Type} (l : list A) (i : Z) : option A :=
  k <- index (length l) i ;; nth_error l k.

(** [l[i] = x] *)
Definition setitem {A : Type} (l : list A) (i : Z) (x : A)
    : option (list A) :=
  k <- index (length l) i ;; Some (update k x l).

(** [l.append(x)] *)
Definition append {A : Type} (l : list A) (x : A) : list A := l ++ [x].

End Py.

Import Py.

(** ** numpy arrays of shape (2,) *)

Definition vec : Type := (R * R)%type.

Definition zeros : vec := (0, 0).
Definition vadd (u v : vec) : vec := (fst u + fst v, snd u + snd v).
Definition vsub (u v : vec) : vec := (fst u - fst v, snd u - snd v).
Definition vneg (u : vec) : vec := (- fst u, - snd u).
Definition vscale (u : vec) (s : R) : vec := (fst u * s, snd u * s).
Definition vdiv (u : vec) (s : R) : vec := (fst u / s, snd u / s).

(** [np.linalg.norm] *)
Definition norm (u : vec) : R := sqrt (fst u * fst u + snd u * snd u).

(** [math.atan2(y, x)]: the angle of the point [(x, y)], in (-PI, PI]. *)
Definition atan2 (y x : R) : R :=
  match total_order_T x 0 with
  | inleft (left _) =>                      (* x < 0 *)
      if Rle_dec 0 y then atan (y / x) + PI else atan (y / x) - PI
  | inleft (right _) =>                     (* x = 0 *)
      match total_order_T y 0 with
      | inleft (left _) => - (PI / 2)
      | inleft (right _) => 0
      | inright _ => PI / 2
      end
  | inright _ => atan (y / x)               (* 0 < x *)
  end.

Declare Scope vec_scope.
Delimit Scope vec_scope with V.
Bind Scope vec_scope with vec.
Infix "+" := vadd : vec_scope.
Infix "-" := vsub : vec_scope.
Notation "- u" := (vneg u) : vec_scope.

(** ** Module constants *)

(* Define size of world *)
Definition WORLD_WIDTH : R := 5e8.

(* mass in kg *)
Definition MASS_EARTH : R := 5.9722e24.
Definition MASS_SUN : R := 333000 * MASS_EARTH.
Definition MASS_VENUS : R := 0.815 * MASS_EARTH.
Definition MASS_MERCURY : R := 0.0553 * MASS_EARTH.

(* radius in km *)
Definition RAD_SUN : R := 695700.
Definition RAD_EARTH : R := 6378.1.
Definition RAD_VENUS : R := 6052.
Definition RAD_MERCURY : R := 2439.4.

(* distances to sun in km *)
Definition DIST_EARTH : R := 149600000.
Definition DIST_VENUS : R := 108200000.
Definition DIST_MERCURY : R := 57900000.

(* speeds in km/s *)
Definition SPEED_EARTH : R := 29.7848.
Definition SPEED_MERCURY : R := 47.
Definition SPEED_VENUS : R := 35.02.

(* gravity constant in km^3 / (kg s^2) *)
Definition GRAVITY_CONST : R := 6.6743e-20.

(* each simulation step advances time by this many seconds *)
Definition DELTA_T : R := 100.

(* run this many simulation steps for each graphical update *)
Definition STEPS_PER_RENDER : nat := 100.

(** ** class Trail *)

Record Trail : Type := mkTrail { points : list vec }.

(** [Trail.__init__] *)
Definition Trail_init : Trail := mkTrail [].

(** [Trail.set_pos], first statement: the [if]/[elif]/[else] that stores
    the position. *)
Definition insert_pos (self : Trail) (pos : vec) : option (list vec) :=
  (* must have at least two points to make a line *)
  if (length (points self) <? 2)%nat then
    Some (append (points self) pos)
  else
    q <- getitem (points self) (-2) ;;
    (* if new pos is very close to last pos, don't add the point.
       Just update the last pos to current. *)
    if Rlt_dec (norm (q - pos)%V) (WORLD_WIDTH * 0.01) then
      setitem (points self) (-1) pos
    (* if new pos is far away from previous pos, add it. *)
    else
      Some (append (points self) pos).

(** [Trail.set_pos], second statement: remove old points, [points[1:]]. *)
Definition remove_old (pts : list vec) : list vec :=
  if (100 <? length pts)%nat then skipn 1 pts else pts.

(** [Trail.set_pos] *)
Definition set_pos (self : Trail) (pos : vec) : option Trail :=
  pts <- insert_pos self pos ;;
  Some (mkTrail (remove_old pts)).

(** A trail that records the positions [ps], one [set_pos] call each. *)
Definition record_all (self : Trail) (ps : list vec) : option Trail :=
  for_each ps (fun pos self => set_pos self pos) self.

(** ** class Body *)

Record Body : Type := mkBody {
  pos : vec;
  vel : vec;
  mass : R;
  radius : R;
  force : vec;
  trail : Trail
}.

(** [Body.__init__] *)
Definition Body_init (pos vel : vec) (mass radius : R) : Body :=
  mkBody pos vel mass radius zeros Trail_init.

(** Attribute assignments [self.x = e]. *)
Definition with_pos (self : Body) (p : vec) : Body :=
  mkBody p (vel self) (mass self) (radius self) (force self) (trail self).
Definition with_vel (self : Body) (v : vec) : Body :=
  mkBody (pos self) v (mass self) (radius self) (force self) (trail self).
Definition with_force (self : Body) (f : vec) : Body :=
  mkBody (pos self) (vel self) (mass self) (radius self) f (trail self).
Definition with_trail (self : Body) (t : Trail) : Body :=
  mkBody (pos self) (vel self) (mass self) (radius self) (force self) t.

(** [Body.set_force] *)
Definition set_force (self : Body) (f : vec) : Body := with_force self f.

(** [Body.update_state]: three statements, run in order on the object. *)
Definition update_state (self : Body) (dt : R) : Body :=
  let a := vdiv (force self) (mass self) in
  let self := with_pos self (pos self + vscale (vel self) dt)%V in
  let self := with_vel self (vel self + vscale a dt)%V in
  self.

(** [Body.update_graphics], without the drawing: the trail records the
    position. *)
Definition update_graphics (self : Body) : option Body :=
  t <- set_pos (trail self) (pos self) ;; Some (with_trail self t).

(** ** The force solver *)

(** The body of the inner loop of [calculate_forces] up to the vector [f]:
    the force that [obj2] exerts on [obj1]. *)
Definition pair_force (obj1 obj2 : Body) : vec :=
  (* dx, dy and distance between 2 objects *)
  let delta := (pos obj2 - pos obj1)%V in
  let dist := norm delta in
  (* force calculation *)
  let f_mag := GRAVITY_CONST * mass obj1 * mass obj2 / dist ^ 2 in
  (* find force components in x and y *)
  let theta := atan2 (snd delta) (fst delta) in
  let fx := f_mag * cos theta in
  let fy := f_mag * sin theta in
  (fx, fy).

(** [forces[obj] += f], the object being the one at index [i]. *)
Definition iadd (forces : list vec) (i : Z) (f : vec) : option (list vec) :=
  a <- getitem forces i ;; setitem forces i (a + f)%V.

(** One iteration of the inner loop. *)
Definition accumulate_pair (objects : list Body) (i1 i2 : Z)
    (forces : list vec) : option (list vec) :=
  obj1 <- getitem objects i1 ;;
  obj2 <- getitem objects i2 ;;
  let f := pair_force obj1 obj2 in
  (* accumulate forces for each object *)
  forces <- iadd forces i1 f ;;
  iadd forces i2 (- f)%V.

(** The last loop: [for obj in forces: obj.set_force(forces[obj])]. *)
Definition assign_force (forces : list vec) (i : Z) (objects : list Body)
    : option (list Body) :=
  obj <- getitem objects i ;;
  f <- getitem forces i ;;
  setitem objects i (set_force obj f).

(** [calculate_forces] *)
Definition calculate_forces (objects : list Body) : option (list Body) :=
  (* forces will be accumulated per object *)
  let forces := map (fun _ => zeros) objects in
  (* iterate through all pairs of objects, such that each pair is
     addressed once *)
  let num_objects := Z.of_nat (length objects) in
  forces <- for_each (range 0 (num_objects - 1)) (fun i1 forces =>
              for_each (range (i1 + 1) num_objects)
                (accumulate_pair objects i1) forces) forces ;;
  (* set accumulated force on each object *)
  for_each (range 0 num_objects) (assign_force forces) objects.

(** ** class MainWidget *)

Record MainWidget : Type := mkMainWidget {
  time : R;
  objects : list Body
}.

(** [MainWidget.__init__]: the Sun, Mercury, Venus and the Earth (the
    hue of a body is given to the drawing only). *)
Definition MainWidget_init : MainWidget :=
  mkMainWidget 0
    [ Body_init (0, 0) (0, 0) MASS_SUN (RAD_SUN * 20);
      Body_init (DIST_MERCURY, 0) (0, SPEED_MERCURY) MASS_MERCURY
        (RAD_MERCURY * 1000);
      Body_init (DIST_VENUS, 0) (0, SPEED_VENUS) MASS_VENUS
        (RAD_VENUS * 1000);
      Body_init (DIST_EARTH, 0) (0, SPEED_EARTH) MASS_EARTH
        (RAD_EARTH * 1000) ].

(** A widget whose only body is the Sun. *)
Definition sun_alone : MainWidget :=
  mkMainWidget 0 [Body_init (0, 0) (0, 0) MASS_SUN (RAD_SUN * 20)].

(** One pass of the loop body of [on_update]. *)
Definition simulation_step (dt : R) (self : MainWidget)
    : option MainWidget :=
  let t := time self + dt in
  objs <- calculate_forces (objects self) ;;
  Some (mkMainWidget t (map (fun obj => update_state obj dt) objs)).

(** [for s in range(n_steps): ...] *)
Definition advance (n_steps : nat) (dt : R) (self : MainWidget)
    : option MainWidget :=
  for_each (range 0 (Z.of_nat n_steps)) (fun _ => simulation_step dt) self.

(** [for obj in self.objects: obj.update_graphics()] *)
Fixpoint update_all_graphics (objs : list Body) : option (list Body) :=
  match objs with
  | [] => Some []
  | obj :: rest =>
      obj' <- update_graphics obj ;;
      rest' <- update_all_graphics rest ;;
      Some (obj' :: rest')
  end.

(** [MainWidget.on_update]: the frame time [dt] it is called with is
    replaced by the constant. *)
Definition on_update (self : MainWidget) (dt : R) : option MainWidget :=
  let dt := DELTA_T in
  self <- advance STEPS_PER_RENDER dt self ;;
  objs <- update_all_graphics (objects self) ;;
  Some (mkMainWidget (time self) objs).

(** ** The same code where its quotients are real numbers *)

(** [x / y] where it is a real number; numpy makes it inf or nan when [y]
    is zero. *)
Definition quotient (x y : R) : option R :=
  if Req_dec_T y 0 then None else Some (x / y).

(** The body of the inner loop of [calculate_forces] up to the vector
    [f], as [pair_force]. *)
Definition pair_force_real (obj1 obj2 : Body) : option vec :=
  (* dx, dy and distance between 2 objects *)
  let delta := (pos obj2 - pos obj1)%V in
  let dist := norm delta in
  (* force calculation *)
  f_mag <- quotient (GRAVITY_CONST * mass obj1 * mass obj2) (dist ^ 2) ;;
  (* find force components in x and y *)
  let theta := atan2 (snd delta) (fst delta) in
  let fx := f_mag * cos theta in
  let fy := f_mag * sin theta in
  Some (fx, fy).

(** One iteration of the inner loop, as [accumulate_pair]. *)
Definition accumulate_pair_real (objects : list Body) (i1 i2 : Z)
    (forces : list vec) : option (list vec) :=
  obj1 <- getitem objects i1 ;;
  obj2 <- getitem objects i2 ;;
  f <- pair_force_real obj1 obj2 ;;
  (* accumulate forces for each object *)
  forces <- iadd forces i1 f ;;
  iadd forces i2 (- f)%V.

(** [calculate_forces] *)
Definition calculate_forces_real (objects : list Body)
    : option (list Body) :=
  (* forces will be accumulated per object *)
  let forces := map (fun _ => zeros) objects in
  (* iterate through all pairs of objects, such that each pair is
     addressed once *)
  let num_objects := Z.of_nat (length objects) in
  forces <- for_each (range 0 (num_objects - 1)) (fun i1 forces =>
              for_each (range (i1 + 1) num_objects)
                (accumulate_pair_real objects i1) forces) forces ;;
  (* set accumulated force on each object *)
  for_each (range 0 num_objects) (assign_force forces) objects.

(** [Body.update_state] *)
Definition update_state_real (self : Body) (dt : R) : option Body :=
  (* F = m * a *)
  ax <- quotient (fst (force self)) (mass self) ;;
  ay <- quotient (snd (force self)) (mass self) ;;
  let a := (ax, ay) in
  (* 1st order Euler integration step *)
  let self := with_pos self (pos self + vscale (vel self) dt)%V in
  let self := with_vel self (vel self + vscale a dt)%V in
  Some self.

(** [for obj in self.objects: obj.update_state(dt)] *)
Fixpoint update_all_states_real (objs : list Body) (dt : R)
    : option (list Body) :=
  match objs with
  | [] => Some []
  | obj :: rest =>
      obj' <- update_state_real obj dt ;;
      rest' <- update_all_states_real rest dt ;;
      Some (obj' :: rest')
  end.

(** One pass of the loop body of [on_update]. *)
Definition simulation_step_real (dt : R) (self : MainWidget)
    : option MainWidget :=
  let t := time self + dt in
  objs <- calculate_forces_real (objects self) ;;
  objs <- update_all_states_real objs dt ;;
  Some (mkMainWidget t objs).

(** [for s in range(n_steps): ...] *)
Definition advance_real (n_steps : nat) (dt : R) (self : MainWidget)
    : option MainWidget :=
  for_each (range 0 (Z.of_nat n_steps))
    (fun _ => simulation_step_real dt) self.

(** Two bodies of mass 1 that meet after one step of 100 seconds: one at
    (0,0) with velocity (1,0), one at rest at (100,0). *)
Definition colliding : MainWidget :=
  mkMainWidget 0 [ Body_init (0, 0) (1, 0) 1 1;
                   Body_init (100, 0) (0, 0) 1 1 ].

(** One body of mass 0, with velocity (1,0). *)
Definition massless : MainWidget :=
  mkMainWidget 0 [ Body_init (0, 0) (1, 0) 0 1 ].

(** ** Drawing *)

(* coordinates of world center *)
Definition WORLD_CENTER : vec := (0, 0).

(** kivy's [Window]: its size in pixels. *)
Record Window : Type := mkWindow { width : R; height : R }.

(** [pos_to_screen]: given a position (2D vector in world coordinates),
    return screen coordinates in pixels. *)
Definition pos_to_screen (win : Window) (pos : vec) : vec :=
  let w := width win in
  let h := height win in
  let ratio := w / WORLD_WIDTH in
  (vscale (pos - WORLD_CENTER) ratio + vdiv (w, h) 2)%V.

(** [scalar_to_screen]: given a scalar in world coordinates (like size),
    return it in units of pixels. *)
Definition scalar_to_screen (win : Window) (s : R) : R :=
  let ratio := width win / WORLD_WIDTH in
  s * ratio.

(** kivy's [Ellipse]: the bottom-left corner and the size of its box. *)
Record Ellipse : Type := mkEllipse { ellipse_pos : vec; ellipse_size : vec }.

(** [array - scalar]: numpy subtracts the scalar from every component. *)
Definition vsub_scalar (u : vec) (s : R) : vec := (fst u - s, snd u - s).

(** [array.tolist()] *)
Definition tolist (u : vec) : list R := [fst u; snd u].

(** [Body.update_graphics], the first three statements: the size and the
    position of the circle. *)
Definition update_circle (win : Window) (self : Body) : Ellipse :=
  let sr := scalar_to_screen win (radius self) in
  mkEllipse (pos_to_screen win (vsub_scalar (pos self) (radius self)))
            (sr * 2, sr * 2).

(** [Trail.update_graphics]: the points of the line, in screen
    coordinates. *)
Definition Trail_update_graphics (win : Window) (self : Trail) : list R :=
  fold_left (fun screen_points p =>
               screen_points ++ tolist (pos_to_screen win p))
    (points self) [].

(** [Body.update_graphics] with what it draws: the body with its trail
    updated, its circle and the points of its line. *)
Definition draw_body (win : Window) (self : Body)
    : option (Body * Ellipse * list R) :=
  let circle := update_circle win self in
  self' <- update_graphics self ;;
  Some (self', circle, Trail_update_graphics win (trail self')).

(** ** Notions of the specification *)

(** The minimum spacing of trail points: 1% of the visible world width. *)
Definition spacing : R := WORLD_WIDTH * 0.01.

(** The cap on the number of trail points. *)
Definition trail_cap : nat := 100.

(** What holds of the stored points of a trail: of three consecutive
    points, the third is at least [spacing] away from the first, or closer
    than [spacing] to the second. *)
Definition spaced (pts : list vec) : Prop :=
  forall l x y z r, pts = l ++ x :: y :: z :: r ->
    spacing <= norm (x - z)%V \/ norm (y - z)%V < spacing.

(** The sum of a list of vectors. *)
Definition vsum (l : list vec) : vec := fold_right vadd zeros l.

(** Newton's law: the vector of magnitude [G * m_i * m_j / d ^ 2] directed
    from body [bi] toward body [bj], [d] being the Euclidean distance of
    their positions. *)
Definition gravity (bi bj : Body) : vec :=
  let d := norm (pos bj - pos bi)%V in
  vscale (vdiv (pos bj - pos bi)%V d)
    (GRAVITY_CONST * mass bi * mass bj / d ^ 2).

(** The bodies of a list other than the one at index [i]. *)
Definition others (i : nat) (bodies : list Body) : list Body :=
  firstn i bodies ++ skipn (S i) bodies.

(** The net gravitational force on the body [bi] at index [i]. *)
Definition net_gravity (i : nat) (bi : Body) (bodies : list Body) : vec :=
  vsum (map (gravity bi) (others i bodies)).

(** The positions of the bodies are pairwise distinct. *)
Definition distinct_positions (bodies : list Body) : Prop :=
  NoDup (map pos bodies).

(** No body has mass zero. *)
Definition nonzero_masses (bodies : list Body) : Prop :=
  Forall (fun b => mass b <> 0) bodies.

(** The invariant [mass > 0] of a body. *)
Definition positive_masses (bodies : list Body) : Prop :=
  Forall (fun b => 0 < mass b) bodies.

(** Total momentum: the sum of [mass * velocity]. *)
Definition momentum (bodies : list Body) : vec :=
  vsum (map (fun b => vscale (vel b) (mass b)) bodies).

(** The vector [f] of the iteration [(i1, i2)] of the loops of
    [calculate_forces]. *)
Definition pair_at (objects : list Body) (i1 i2 : Z) : vec :=
  match nth_error objects (Z.to_nat i1), nth_error objects (Z.to_nat i2) with
  | Some obj1, Some obj2 => pair_force obj1 obj2
  | _, _ => zeros
  end.

(** What the iteration [(i1, i2)] adds to the accumulator of index [k]. *)
Definition contribution (objects : list Body) (i1 i2 k : Z) : vec :=
  ((if (k =? i1)%Z then pair_at objects i1 i2 else zeros) +
   (if (k =? i2)%Z then - pair_at objects i1 i2 else zeros))%V.

(** What the two nested loops add to the accumulator of index [k]. *)
Definition accumulated (objects : list Body) (k : Z) : vec :=
  let num_objects := Z.of_nat (length objects) in
  vsum (map (fun i1 =>
    vsum (map (fun i2 => contribution objects i1 i2 k)
            (range (i1 + 1) num_objects)))
    (range 0 (num_objects - 1))).

(** The list [l] has [len] entries, the one at index [k] being [g k]. *)
Definition tabulates {A : Type} (len : nat) (l : list A) (g : Z -> A) : Prop :=
  length l = len /\
  forall k, (0 <= k < Z.of_nat len)%Z -> nth_error l (Z.to_nat k) = Some (g k).

(** The invariant the specification states for a trail: consecutive
    stored points are at least [spacing] apart, except possibly the two
    most recent ones. *)
Definition well_spaced (pts : list vec) : Prop :=
  forall l x y r, pts = l ++ x :: y :: r -> r <> [] ->
    spacing <= norm (x - y)%V.

(** The centre of an ellipse: the corner of its box plus half its size. *)
Definition ellipse_center (e : Ellipse) : vec :=
  (ellipse_pos e + vdiv (ellipse_size e) 2)%V.

(** The sum of [mass * position]: the centre of mass times the total
    mass. *)
Definition mass_moment (bodies : list Body) : vec :=
  vsum (map (fun b => vscale (pos b) (mass b)) bodies).

(** The body moved by the vector [v]. *)
Definition translate (v : vec) (b : Body) : Body := with_pos b (pos b + v)%V.

(** Every position of the sequence is at least [spacing] away from the
    position two places before it. *)
Definition strides (ps : list vec) : Prop :=
  forall l x y z r, ps = l ++ x :: y :: z :: r ->
    ~ norm (x - z)%V < spacing.

(** * Properties *)

(** ** Indexing, updating and ranges *)

Section PyFacts.

Context {A : Type}.
Implicit Types (l : list A) (k : nat) (i : Z).

Lemma index_in_range len i :
  (0 <= i < Z.of_nat len)%Z -> index len i = Some (Z.to_nat i).
Proof.
  intros [H0 H1]. unfold index.
  apply Z.leb_le in H0. apply Z.ltb_lt in H1.
  now rewrite H0, H1.
Qed.

Lemma index_from_end len i :
  (- Z.of_nat len <= i < 0)%Z ->
  index len i = Some (Z.to_nat (Z.of_nat len + i)).
Proof.
  intros [H0 H1]. unfold index.
  destruct (Z.leb_spec 0 i) as [H | _]; [lia |].
  apply Z.leb_le in H0. now rewrite H0.
Qed.

Lemma length_update k (x : A) l : length (update k x l) = length l.
Proof.
  revert k. induction l as [| y l IH]; intros [| k]; simpl; auto.
Qed.

Lemma nth_error_update_same k (x : A) l :
  (k < length l)%nat -> nth_error (update k x l) k = Some x.
Proof.
  revert k. induction l as [| y l IH]; intros [| k] H; simpl in *;
    try lia; auto.
  apply IH. lia.
Qed.

Lemma nth_error_update_other k j (x : A) l :
  j <> k -> nth_error (update k x l) j = nth_error l j.
Proof.
  revert k j. induction l as [| y l IH]; intros [| k] [| j] H; simpl;
    try congruence; auto.
Qed.

Lemma getitem_in_range l i :
  (0 <= i < Z.of_nat (length l))%Z ->
  getitem l i = nth_error l (Z.to_nat i).
Proof.
  intros H. unfold getitem. now rewrite index_in_range.
Qed.

Lemma setitem_in_range l i (x : A) :
  (0 <= i < Z.of_nat (length l))%Z ->
  setitem l i x = Some (update (Z.to_nat i) x l).
Proof.
  intros H. unfold setitem. now rewrite index_in_range.
Qed.

End PyFacts.

Lemma range_empty lo hi : (hi <= lo)%Z -> range lo hi = [].
Proof.
  intros H. unfold range.
  replace (Z.to_nat (hi - lo)) with O by lia. reflexivity.
Qed.

Lemma range_first lo hi :
  (lo < hi)%Z -> range lo hi = lo :: range (lo + 1) hi.
Proof.
  intros H. unfold range.
  replace (Z.to_nat (hi - lo)) with (S (Z.to_nat (hi - (lo + 1)))) by lia.
  simpl. f_equal; [lia |].
  rewrite <- seq_shift, map_map.
  apply map_ext. intros k. lia.
Qed.

Lemma map_seq_from {B : Type} (f : nat -> B) m len :
  map f (seq m len) = map (fun k => f (m + k)%nat) (seq 0 len).
Proof.
  revert m. induction len as [| len IH]; intros m; simpl; [reflexivity |].
  rewrite Nat.add_0_r. f_equal.
  rewrite <- (seq_shift len 0), map_map, IH.
  apply map_ext. intros k. f_equal. lia.
Qed.

Lemma range_split lo mid hi :
  (lo <= mid <= hi)%Z -> range lo hi = range lo mid ++ range mid hi.
Proof.
  intros H. unfold range.
  replace (Z.to_nat (hi - lo))
    with (Z.to_nat (mid - lo) + Z.to_nat (hi - mid))%nat by lia.
  rewrite seq_app, map_app. f_equal.
  simpl. rewrite map_seq_from.
  apply map_ext. intros k. lia.
Qed.

Lemma in_range i lo hi : In i (range lo hi) <-> (lo <= i < hi)%Z.
Proof.
  unfold range. rewrite in_map_iff. split.
  - intros (k & <- & Hk). apply in_seq in Hk. lia.
  - intros H. exists (Z.to_nat (i - lo)). split; [lia |].
    apply in_seq. lia.
Qed.

Lemma for_each_app {A S : Type} (xs ys : list A) (body : A -> S -> option S)
    (s : S) :
  for_each (xs ++ ys) body s = s' <- for_each xs body s ;; for_each ys body s'.
Proof.
  revert s. induction xs as [| x xs IH]; intros s; simpl; [reflexivity |].
  destruct (body x s); simpl; auto.
Qed.

Lemma update_last {A : Type} (l : list A) (z x : A) :
  update (length l) x (l ++ [z]) = l ++ [x].
Proof.
  induction l as [| y l IH]; simpl; [reflexivity | now rewrite IH].
Qed.

Lemma two_from_end {A : Type} (l : list A) :
  (2 <= length l)%nat -> exists l' q z, l = l' ++ [q; z].
Proof.
  intros H.
  destruct (exists_last (l := l)) as (l1 & z & ->);
    [intros ->; simpl in H; lia |].
  rewrite length_app in H; simpl in H.
  destruct (exists_last (l := l1)) as (l' & q & ->);
    [intros ->; simpl in H; lia |].
  exists l', q, z. now rewrite <- app_assoc.
Qed.

(** ** The trail *)

Lemma spacing_value : spacing = 5000000.
Proof. unfold spacing, WORLD_WIDTH. lra. Qed.

Section TrailFacts.

Implicit Types (l pts : list vec) (p q z : vec).

Lemma insert_pos_short pts p :
  (length pts < 2)%nat -> insert_pos (mkTrail pts) p = Some (pts ++ [p]).
Proof.
  intros H. unfold insert_pos; simpl.
  apply Nat.ltb_lt in H. now rewrite H.
Qed.

Lemma getitem_second_to_last l q z : getitem (l ++ [q; z]) (-2) = Some q.
Proof.
  unfold getitem. rewrite index_from_end
    by (rewrite length_app; simpl; lia).
  simpl. rewrite length_app; simpl.
  replace (Z.to_nat (Z.of_nat (length l + 2) + -2)) with (length l) by lia.
  rewrite nth_error_app2 by lia. now rewrite Nat.sub_diag.
Qed.

Lemma setitem_last l q z p : setitem (l ++ [q; z]) (-1) p = Some (l ++ [q; p]).
Proof.
  unfold setitem. rewrite index_from_end
    by (rewrite length_app; simpl; lia).
  simpl. rewrite length_app; simpl.
  replace (Z.to_nat (Z.of_nat (length l + 2) + -1))
    with (length (l ++ [q])) by (rewrite length_app; simpl; lia).
  change (l ++ [q; z]) with (l ++ [q] ++ [z]).
  rewrite app_assoc, update_last, <- app_assoc. reflexivity.
Qed.

Lemma insert_pos_near l q z p :
  norm (q - p)%V < spacing ->
  insert_pos (mkTrail (l ++ [q; z])) p = Some (l ++ [q; p]).
Proof.
  intros H. unfold insert_pos; simpl.
  replace (length (l ++ [q; z]) <? 2)%nat with false
    by (symmetry; apply Nat.ltb_ge; rewrite length_app; simpl; lia).
  rewrite getitem_second_to_last; simpl.
  fold spacing. destruct (Rlt_dec _ _) as [_ | Hn]; [| contradiction].
  apply setitem_last.
Qed.

Lemma insert_pos_far l q z p :
  ~ norm (q - p)%V < spacing ->
  insert_pos (mkTrail (l ++ [q; z])) p = Some (l ++ [q; z; p]).
Proof.
  intros H. unfold insert_pos; simpl.
  replace (length (l ++ [q; z]) <? 2)%nat with false
    by (symmetry; apply Nat.ltb_ge; rewrite length_app; simpl; lia).
  rewrite getitem_second_to_last; simpl.
  fold spacing. destruct (Rlt_dec _ _) as [Hn | _]; [contradiction |].
  unfold append. now rewrite <- app_assoc.
Qed.

End TrailFacts.

Lemma norm_lt_sq (u : vec) (c : R) :
  0 <= c -> fst u * fst u + snd u * snd u < c * c -> norm u < c.
Proof.
  intros Hc H. unfold norm.
  rewrite <- (sqrt_square c Hc).
  apply sqrt_lt_1; [nra | nra | exact H].
Qed.

Lemma norm_ge_sq (u : vec) (c : R) :
  0 <= c -> c * c <= fst u * fst u + snd u * snd u -> ~ norm u < c.
Proof.
  intros Hc H Hlt. unfold norm in Hlt.
  rewrite <- (sqrt_square c Hc) in Hlt.
  apply sqrt_lt_0_alt in Hlt. lra.
Qed.

Lemma insert_pos_cases (t : Trail) (p : vec) :
  ((length (points t) < 2)%nat /\
   insert_pos t p = Some (points t ++ [p])) \/
  (exists l q z, points t = l ++ [q; z] /\ norm (q - p)%V < spacing /\
     insert_pos t p = Some (l ++ [q; p])) \/
  (exists l q z, points t = l ++ [q; z] /\ ~ norm (q - p)%V < spacing /\
     insert_pos t p = Some (l ++ [q; z; p])).
Proof.
  destruct t as [pts]; simpl.
  destruct (Nat.lt_ge_cases (length pts) 2) as [H | H].
  - left. split; [exact H | now apply insert_pos_short].
  - right. destruct (two_from_end pts H) as (l & q & z & ->).
    destruct (Rlt_dec (norm (q - p)%V) spacing) as [Hn | Hn].
    + left. exists l, q, z. auto using insert_pos_near.
    + right. exists l, q, z. auto using insert_pos_far.
Qed.

Lemma insert_pos_length (t : Trail) (p : vec) :
  exists pts, insert_pos t p = Some pts /\
    (length pts <= S (length (points t)))%nat.
Proof.
  destruct (insert_pos_cases t p)
    as [[_ H] | [(l & q & z & E & _ & H) | (l & q & z & E & _ & H)]];
    rewrite H; eexists; (split; [reflexivity |]);
    rewrite ?E, !length_app; simpl; lia.
Qed.

Lemma remove_old_length (pts : list vec) :
  (length pts <= S trail_cap)%nat -> (length (remove_old pts) <= trail_cap)%nat.
Proof.
  unfold remove_old, trail_cap. intros H.
  destruct (Nat.ltb_spec 100 (length pts)) as [Hl | Hl]; [| exact Hl].
  rewrite length_skipn. lia.
Qed.

Lemma set_pos_length (t : Trail) (p : vec) :
  (length (points t) <= trail_cap)%nat ->
  exists t', set_pos t p = Some t' /\ (length (points t') <= trail_cap)%nat.
Proof.
  intros H. destruct (insert_pos_length t p) as (pts & E & Hl).
  unfold set_pos. rewrite E; simpl. eexists; split; [reflexivity |].
  simpl. apply remove_old_length. lia.
Qed.

Lemma record_all_snoc (t : Trail) (ps : list vec) (p : vec) :
  record_all t (ps ++ [p]) = t' <- record_all t ps ;; set_pos t' p.
Proof.
  unfold record_all. rewrite for_each_app.
  destruct (for_each ps _ t) as [t' |]; simpl; [| reflexivity].
  now destruct (set_pos t' p).
Qed.

Lemma record_all_length (ps : list vec) :
  exists t, record_all Trail_init ps = Some t /\
    (length (points t) <= trail_cap)%nat.
Proof.
  induction ps as [| p ps IH] using rev_ind.
  - exists Trail_init. split; [reflexivity | simpl; unfold trail_cap; lia].
  - destruct IH as (t & E & Hl).
    destruct (set_pos_length t p Hl) as (t' & E' & Hl').
    exists t'. rewrite record_all_snoc, E. auto.
Qed.

Lemma triple_at_end {A : Type} (pts l r : list A) (p x y z : A) :
  pts ++ [p] = l ++ x :: y :: z :: r ->
  (r = [] /\ z = p /\ pts = l ++ [x; y]) \/
  (exists r', r = r' ++ [p] /\ pts = l ++ x :: y :: z :: r').
Proof.
  intros E. destruct r as [| a r] using rev_ind; [left | right].
  - change (l ++ [x; y; z]) with (l ++ [x; y] ++ [z]) in E.
    rewrite app_assoc in E. apply app_inj_tail in E as [-> ->]. auto.
  - clear IHr. exists r.
    change (l ++ x :: y :: z :: r ++ [a])
      with (l ++ (x :: y :: z :: r) ++ [a]) in E.
    rewrite app_assoc in E. apply app_inj_tail in E as [-> ->]. auto.
Qed.

Lemma spaced_short (pts : list vec) : (length pts < 3)%nat -> spaced pts.
Proof.
  intros H l x y z r ->. rewrite length_app in H; simpl in H. lia.
Qed.

Lemma spaced_tail (a : vec) (pts : list vec) : spaced (a :: pts) -> spaced pts.
Proof.
  intros H l x y z r ->. apply (H (a :: l) x y z r). reflexivity.
Qed.

Lemma spaced_remove_old (pts : list vec) : spaced pts -> spaced (remove_old pts).
Proof.
  intros H. unfold remove_old. destruct (100 <? length pts)%nat; [| exact H].
  destruct pts as [| a pts]; simpl; [exact H | exact (spaced_tail _ _ H)].
Qed.

Lemma spaced_overwrite (l : list vec) (q z p : vec) :
  spaced (l ++ [q; z]) -> norm (q - p)%V < spacing -> spaced (l ++ [q; p]).
Proof.
  intros H Hn l' x y z' r E.
  change (l ++ [q; p]) with (l ++ [q] ++ [p]) in E. rewrite app_assoc in E.
  apply triple_at_end in E as [(_ & -> & E) | (r' & -> & E)].
  - change (l' ++ [x; y]) with (l' ++ [x] ++ [y]) in E.
    rewrite app_assoc in E. apply app_inj_tail in E as [_ ->]. now right.
  - apply (H l' x y z' (r' ++ [z])).
    change (l ++ [q; z]) with (l ++ [q] ++ [z]).
    rewrite app_assoc, E, <- app_assoc. reflexivity.
Qed.

Lemma spaced_append (l : list vec) (q z p : vec) :
  spaced (l ++ [q; z]) -> ~ norm (q - p)%V < spacing ->
  spaced (l ++ [q; z; p]).
Proof.
  intros H Hn l' x y z' r E.
  change (l ++ [q; z; p]) with (l ++ [q; z] ++ [p]) in E.
  rewrite app_assoc in E.
  apply triple_at_end in E as [(_ & -> & E) | (r' & -> & E)].
  - change (l ++ [q; z]) with (l ++ [q] ++ [z]) in E.
    change (l' ++ [x; y]) with (l' ++ [x] ++ [y]) in E.
    rewrite !app_assoc in E. apply app_inj_tail in E as [E _].
    apply app_inj_tail in E as [_ ->]. left. lra.
  - now apply (H l' x y z' r').
Qed.

Lemma set_pos_spaced (t t' : Trail) (p : vec) :
  spaced (points t) -> set_pos t p = Some t' -> spaced (points t').
Proof.
  intros H. unfold set_pos.
  destruct (insert_pos_cases t p)
    as [[Hl E] | [(l & q & z & Ep & Hn & E) | (l & q & z & Ep & Hn & E)]];
    rewrite E; simpl; intros [= <-]; simpl; apply spaced_remove_old.
  - apply spaced_short. rewrite length_app; simpl. lia.
  - rewrite Ep in H. eauto using spaced_overwrite.
  - rewrite Ep in H. eauto using spaced_append.
Qed.

Lemma remove_old_small (pts : list vec) :
  (length pts <= 100)%nat -> remove_old pts = pts.
Proof.
  intros H. unfold remove_old. apply Nat.ltb_ge in H. now rewrite H.
Qed.

Lemma set_pos_short (pts : list vec) (p : vec) :
  (length pts < 2)%nat -> set_pos (mkTrail pts) p = Some (mkTrail (pts ++ [p])).
Proof.
  intros H. unfold set_pos. rewrite insert_pos_short by exact H. simpl.
  rewrite remove_old_small; [reflexivity | rewrite length_app; simpl; lia].
Qed.

Lemma set_pos_near (l : list vec) (q z p : vec) :
  norm (q - p)%V < spacing -> (length l + 2 <= 100)%nat ->
  set_pos (mkTrail (l ++ [q; z])) p = Some (mkTrail (l ++ [q; p])).
Proof.
  intros H Hl. unfold set_pos. rewrite insert_pos_near by exact H. simpl.
  rewrite remove_old_small; [reflexivity | rewrite length_app; simpl; lia].
Qed.

Lemma set_pos_far (l : list vec) (q z p : vec) :
  ~ norm (q - p)%V < spacing -> (length l + 3 <= 100)%nat ->
  set_pos (mkTrail (l ++ [q; z])) p = Some (mkTrail (l ++ [q; z; p])).
Proof.
  intros H Hl. unfold set_pos. rewrite insert_pos_far by exact H. simpl.
  rewrite remove_old_small; [reflexivity | rewrite length_app; simpl; lia].
Qed.

Lemma record_all_step (t t' : Trail) (p : vec) (ps : list vec)
    (r : option Trail) :
  set_pos t p = Some t' -> record_all t' ps = r -> record_all t (p :: ps) = r.
Proof.
  intros E <-. unfold record_all. simpl. now rewrite E.
Qed.

Ltac norm_of_numbers :=
  rewrite ?spacing_value;
  first [ apply norm_lt_sq | apply norm_ge_sq ]; simpl; lra.

(** C5: a trail never holds more than 100 points.  A trail is created
    empty and changed by [set_pos] only, so it is the result of recording
    some sequence [ps] of positions; whatever position [p] is recorded
    next, the call succeeds and leaves at most 100 points, and when the
    insertion has made 101 points it is the first, oldest one that is
    removed. *)
Theorem trail_length_capped (ps : list vec) (p : vec) :
  exists t pts t',
    record_all Trail_init ps = Some t /\
    insert_pos t p = Some pts /\
    set_pos t p = Some t' /\
    record_all Trail_init (ps ++ [p]) = Some t' /\
    (length (points t') <= 100)%nat /\
    ((100 < length pts)%nat -> exists oldest, pts = oldest :: points t') /\
    ((length pts <= 100)%nat -> points t' = pts).
Proof.
  destruct (record_all_length ps) as (t & E & Hl).
  destruct (insert_pos_length t p) as (pts & Ei & Hi).
  exists t, pts, (mkTrail (remove_old pts)).
  assert (Es : set_pos t p = Some (mkTrail (remove_old pts)))
    by (unfold set_pos; now rewrite Ei).
  repeat split; auto.
  - now rewrite record_all_snoc, E.
  - simpl. apply remove_old_length. lia.
  - intros H. simpl. unfold remove_old.
    apply Nat.ltb_lt in H as H'. rewrite H'.
    destruct pts as [| oldest rest]; [simpl in H; lia |].
    now exists oldest.
  - intros H. simpl. unfold remove_old.
    apply Nat.ltb_ge in H. now rewrite H.
Qed.

(** C6, as the code has it: when a trail holds at least 2 points and the
    new position is closer than the spacing threshold to the
    second-to-last stored point, [set_pos] overwrites the last stored
    point with the new position, and the number of points does not
    increase. *)
Theorem trail_collapse (t : Trail) (p q : vec) :
  (2 <= length (points t))%nat ->
  getitem (points t) (-2) = Some q ->
  norm (q - p)%V < spacing ->
  exists t',
    set_pos t p = Some t' /\
    insert_pos t p = Some (removelast (points t) ++ [p]) /\
    (length (points t') <= length (points t))%nat /\
    ((length (points t) <= 100)%nat ->
     points t' = removelast (points t) ++ [p]).
Proof.
  intros H2 Hq Hn. destruct t as [pts]; simpl in *.
  destruct (two_from_end pts H2) as (l & q' & z & ->).
  rewrite getitem_second_to_last in Hq. injection Hq as ->.
  assert (Er : removelast (l ++ [q; z]) ++ [p] = l ++ [q; p]).
  { change (l ++ [q; z]) with (l ++ [q] ++ [z]).
    rewrite app_assoc, removelast_last, <- app_assoc. reflexivity. }
  assert (Ei := insert_pos_near l q z p Hn).
  exists (mkTrail (remove_old (l ++ [q; p]))).
  unfold set_pos. rewrite Ei, Er. simpl.
  repeat split.
  - unfold remove_old. destruct (100 <? _)%nat.
    + rewrite length_skipn, !length_app. simpl. lia.
    + rewrite !length_app. simpl. lia.
  - intros Hl. unfold remove_old.
    replace (100 <? length (l ++ [q; p]))%nat with false; [reflexivity |].
    symmetry. apply Nat.ltb_ge. rewrite length_app in *. simpl in *. lia.
Qed.

(** The hypotheses of [trail_collapse] hold of the trail of the points
    (0,0) and (1000,0) and the new position (2000,0). *)
Lemma trail_collapse_witness :
  exists t',
    set_pos (mkTrail [(0, 0); (1000, 0)]) (2000, 0) = Some t' /\
    insert_pos (mkTrail [(0, 0); (1000, 0)]) (2000, 0)
      = Some (removelast [(0, 0); (1000, 0)] ++ [(2000, 0)]) /\
    (length (points t') <= 2)%nat /\
    ((2 <= 100)%nat -> points t' = removelast [(0, 0); (1000, 0)] ++ [(2000, 0)]).
Proof.
  apply (trail_collapse (mkTrail [(0, 0); (1000, 0)]) (2000, 0) (0, 0)).
  - simpl. lia.
  - reflexivity.
  - norm_of_numbers.
Defined.

(** C6, as the claim states it, fails: the trail that has recorded (0,0),
    (1e7,0) and (2e7,0) holds three points, and recording (2e7,0) once
    more, at distance 0 from the position recorded last, appends a fourth
    point, because the comparison is with the second-to-last stored point
    (1e7,0). *)
Lemma trail_collapse_counterexample :
  record_all Trail_init [(0, 0); (10000000, 0); (20000000, 0)]
    = Some (mkTrail [(0, 0); (10000000, 0); (20000000, 0)]) /\
  norm ((20000000, 0) - (20000000, 0))%V < spacing /\
  set_pos (mkTrail [(0, 0); (10000000, 0); (20000000, 0)]) (20000000, 0)
    = Some (mkTrail [(0, 0); (10000000, 0); (20000000, 0); (20000000, 0)]).
Proof.
  split; [| split].
  - eapply record_all_step; [apply (set_pos_short []); simpl; lia |].
    eapply record_all_step; [apply (set_pos_short [(0, 0)]); simpl; lia |].
    eapply record_all_step; [| reflexivity].
    apply (set_pos_far [] (0, 0)); [norm_of_numbers | simpl; lia].
  - norm_of_numbers.
  - apply (set_pos_far [(0, 0)] (10000000, 0) (20000000, 0) (20000000, 0));
      [norm_of_numbers | simpl; lia].
Qed.

(** C7, as the code has it: in every trail obtained from the empty trail by
    recording a sequence of positions, of any three consecutive stored
    points the third is at least the spacing threshold away from the
    first, or closer than the threshold to the second. *)
Theorem trail_spacing (ps : list vec) :
  exists t, record_all Trail_init ps = Some t /\ spaced (points t).
Proof.
  induction ps as [| p ps IH] using rev_ind.
  - exists Trail_init. split; [reflexivity |].
    apply spaced_short. simpl. lia.
  - destruct IH as (t & E & Hs).
    destruct (record_all_length ps) as (t0 & E0 & Hl).
    rewrite E in E0. injection E0 as <-.
    destruct (set_pos_length t p Hl) as (t' & E' & _).
    exists t'. rewrite record_all_snoc, E. split; [exact E' |].
    eauto using set_pos_spaced.
Qed.

(** C7, as the claim states it, fails: recording the positions (0,0),
    (1000000,0), (2000000,0) and (6000000,0) leaves the three points
    (0,0), (2000000,0), (6000000,0); the first two of them are 2000000
    apart, less than the threshold 5000000, and they are not the two most
    recent points. *)
Lemma trail_spacing_counterexample :
  record_all Trail_init [(0, 0); (1000000, 0); (2000000, 0); (6000000, 0)]
    = Some (mkTrail [(0, 0); (2000000, 0); (6000000, 0)]) /\
  ~ well_spaced [(0, 0); (2000000, 0); (6000000, 0)].
Proof.
  split.
  - eapply record_all_step; [apply (set_pos_short []); simpl; lia |].
    eapply record_all_step; [apply (set_pos_short [(0, 0)]); simpl; lia |].
    eapply record_all_step;
      [apply (set_pos_near [] (0, 0)); [norm_of_numbers | simpl; lia] |].
    eapply record_all_step; [| reflexivity].
    apply (set_pos_far [] (0, 0)); [norm_of_numbers | simpl; lia].
  - intros H.
    specialize (H [] (0, 0) (2000000, 0) [(6000000, 0)] eq_refl).
    assert (Hn : norm ((0, 0) - (2000000, 0))%V < spacing)
      by norm_of_numbers.
    assert (spacing <= norm ((0, 0) - (2000000, 0))%V)
      by (apply H; discriminate).
    lra.
Qed.

(** ** Vectors *)

Lemma vec_eq (u v : vec) : fst u = fst v -> snd u = snd v -> u = v.
Proof. destruct u, v; simpl; congruence. Qed.

Ltac vec_unfold :=
  unfold vadd, vsub, vneg, vscale, vdiv, zeros in *; simpl in *.

Ltac vec_ring := apply vec_eq; vec_unfold; ring.

Lemma vadd_zeros_l (u : vec) : (zeros + u)%V = u.
Proof. vec_ring. Qed.

Lemma vadd_zeros_r (u : vec) : (u + zeros)%V = u.
Proof. vec_ring. Qed.

Lemma vadd_comm (u v : vec) : (u + v)%V = (v + u)%V.
Proof. vec_ring. Qed.

Lemma vadd_assoc (u v w : vec) : (u + (v + w))%V = (u + v + w)%V.
Proof. vec_ring. Qed.

Lemma vneg_vneg (u : vec) : (- - u)%V = u.
Proof. vec_ring. Qed.

Lemma vsum_cons (u : vec) (l : list vec) : vsum (u :: l) = (u + vsum l)%V.
Proof. reflexivity. Qed.

Lemma vsum_app (l1 l2 : list vec) :
  vsum (l1 ++ l2) = (vsum l1 + vsum l2)%V.
Proof.
  induction l1 as [| u l1 IH]; simpl.
  - now rewrite vadd_zeros_l.
  - fold (vsum (l1 ++ l2)) (vsum l1). now rewrite IH, vadd_assoc.
Qed.

Lemma vsum_zeros {A : Type} (l : list A) : vsum (map (fun _ => zeros) l) = zeros.
Proof.
  induction l as [| x l IH]; simpl; [reflexivity |].
  fold (vsum (map (fun _ : A => zeros) l)). now rewrite IH, vadd_zeros_l.
Qed.

Lemma vsum_map_ext {A : Type} (f g : A -> vec) (l : list A) :
  (forall x, In x l -> f x = g x) -> vsum (map f l) = vsum (map g l).
Proof.
  intros H. induction l as [| x l IH]; simpl; [reflexivity |].
  fold (vsum (map f l)) (vsum (map g l)).
  rewrite H, IH; auto using in_eq, in_cons.
Qed.

Lemma vsum_map_add {A : Type} (f g : A -> vec) (l : list A) :
  vsum (map (fun x => f x + g x)%V l) = (vsum (map f l) + vsum (map g l))%V.
Proof.
  induction l as [| x l IH]; simpl.
  - now rewrite vadd_zeros_l.
  - fold (vsum (map (fun x => f x + g x)%V l)) (vsum (map f l))
      (vsum (map g l)).
    rewrite IH. vec_ring.
Qed.

Lemma vsum_update (l : list vec) (k : nat) (a v : vec) :
  nth_error l k = Some a ->
  vsum (update k (a + v)%V l) = (vsum l + v)%V.
Proof.
  revert k. induction l as [| u l IH]; intros [| k] H; simpl in *;
    try discriminate.
  - injection H as ->. fold (vsum l). vec_ring.
  - fold (vsum (update k (a + v)%V l)) (vsum l).
    rewrite (IH k H). vec_ring.
Qed.

(** ** The angle of a vector *)

Lemma hypot_pos (x y : R) : x <> 0 \/ y <> 0 -> 0 < sqrt (x * x + y * y).
Proof.
  intros H. apply sqrt_lt_R0. destruct H; nra.
Qed.

Lemma sqrt_slope (x y : R) :
  x <> 0 -> sqrt (1 + (y / x)²) = sqrt (x * x + y * y) / Rabs x.
Proof.
  intros Hx.
  assert (Ha : 0 < Rabs x) by now apply Rabs_pos_lt.
  assert (Hd : 0 <= sqrt (x * x + y * y)) by apply sqrt_pos.
  assert (Hs : sqrt (x * x + y * y) * sqrt (x * x + y * y) = x * x + y * y)
    by (apply sqrt_def; nra).
  assert (Hq : Rabs x * Rabs x = x * x)
    by (unfold Rabs; destruct (Rcase_abs x); ring).
  apply sqrt_lem_1.
  - unfold Rsqr. nra.
  - apply Rmult_le_pos; [exact Hd |]. left. now apply Rinv_0_lt_compat.
  - unfold Rsqr.
    replace (sqrt (x * x + y * y) / Rabs x * (sqrt (x * x + y * y) / Rabs x))
      with (sqrt (x * x + y * y) * sqrt (x * x + y * y) / (Rabs x * Rabs x))
      by (field; lra).
    rewrite Hs, Hq. field. exact Hx.
Qed.

Lemma cos_atan_slope (x y : R) :
  x <> 0 -> cos (atan (y / x)) = Rabs x / sqrt (x * x + y * y).
Proof.
  intros Hx. rewrite cos_atan, sqrt_slope by exact Hx.
  assert (0 < Rabs x) by now apply Rabs_pos_lt.
  assert (0 < sqrt (x * x + y * y)) by (apply hypot_pos; auto).
  field. lra.
Qed.

Lemma sin_atan_slope (x y : R) :
  x <> 0 -> sin (atan (y / x)) = y / x * Rabs x / sqrt (x * x + y * y).
Proof.
  intros Hx. rewrite sin_atan, sqrt_slope by exact Hx.
  assert (0 < Rabs x) by now apply Rabs_pos_lt.
  assert (0 < sqrt (x * x + y * y)) by (apply hypot_pos; auto).
  field. lra.
Qed.

Lemma cos_atan2 (x y : R) :
  x <> 0 \/ y <> 0 -> cos (atan2 y x) = x / sqrt (x * x + y * y).
Proof.
  intros H. assert (Hd := hypot_pos x y H). unfold atan2.
  destruct (total_order_T x 0) as [[Hx | Hx] | Hx].
  - assert (Ha : Rabs x = - x) by (apply Rabs_left; exact Hx).
    destruct (Rle_dec 0 y).
    + rewrite neg_cos, cos_atan_slope, Ha by lra. field. lra.
    + rewrite cos_minus, cos_PI, sin_PI, cos_atan_slope, Ha by lra.
      field. lra.
  - subst x. destruct (total_order_T y 0) as [[Hy | Hy] | Hy].
    + rewrite cos_neg, cos_PI2. field. lra.
    + destruct H; lra.
    + rewrite cos_PI2. field. lra.
  - assert (Ha : Rabs x = x) by (apply Rabs_right; lra).
    rewrite cos_atan_slope, Ha by lra. reflexivity.
Qed.

Lemma sin_atan2 (x y : R) :
  x <> 0 \/ y <> 0 -> sin (atan2 y x) = y / sqrt (x * x + y * y).
Proof.
  intros H. assert (Hd := hypot_pos x y H). unfold atan2.
  destruct (total_order_T x 0) as [[Hx | Hx] | Hx].
  - assert (Ha : Rabs x = - x) by (apply Rabs_left; exact Hx).
    destruct (Rle_dec 0 y).
    + rewrite neg_sin, sin_atan_slope, Ha by lra. field. lra.
    + rewrite sin_minus, cos_PI, sin_PI, sin_atan_slope, Ha by lra.
      field. lra.
  - subst x. destruct (total_order_T y 0) as [[Hy | Hy] | Hy].
    + rewrite sin_neg, sin_PI2.
      replace (0 * 0 + y * y) with ((- y) * (- y)) by ring.
      rewrite sqrt_square by lra. field. lra.
    + destruct H; lra.
    + rewrite sin_PI2.
      replace (0 * 0 + y * y) with (y * y) by ring.
      rewrite sqrt_square by lra. field. lra.
  - assert (Ha : Rabs x = x) by (apply Rabs_right; lra).
    rewrite sin_atan_slope, Ha by lra. field. lra.
Qed.

(** ** The force between two bodies *)

Lemma norm_vsub_sym (u v : vec) : norm (u - v)%V = norm (v - u)%V.
Proof.
  unfold norm, vsub; simpl. f_equal. ring.
Qed.

Lemma vsub_nonzero (u v : vec) :
  u <> v -> fst (v - u)%V <> 0 \/ snd (v - u)%V <> 0.
Proof.
  intros H. destruct u as [ux uy], v as [vx vy]; simpl.
  destruct (Req_dec (vx - ux) 0) as [Hx | Hx]; [| now left].
  right. intros Hy. apply H. f_equal; lra.
Qed.

Lemma pair_force_gravity (obj1 obj2 : Body) :
  pos obj1 <> pos obj2 -> pair_force obj1 obj2 = gravity obj1 obj2.
Proof.
  intros H. apply vsub_nonzero in H.
  unfold pair_force, gravity.
  rewrite cos_atan2, sin_atan2 by exact H.
  fold (norm (pos obj2 - pos obj1)%V).
  assert (Hd := hypot_pos _ _ H). fold (norm (pos obj2 - pos obj1)%V) in Hd.
  apply vec_eq; unfold vscale, vdiv; simpl; field; lra.
Qed.

Lemma gravity_antisym (obj1 obj2 : Body) :
  gravity obj1 obj2 = (- gravity obj2 obj1)%V.
Proof.
  unfold gravity. rewrite (norm_vsub_sym (pos obj1) (pos obj2)).
  apply vec_eq; unfold vscale, vdiv, vneg, vsub, Rdiv; simpl; ring.
Qed.

(** ** The loops of the force solver *)

Lemma tabulates_ext {A : Type} (len : nat) (l : list A) (g g' : Z -> A) :
  tabulates len l g ->
  (forall k, (0 <= k < Z.of_nat len)%Z -> g k = g' k) ->
  tabulates len l g'.
Proof.
  intros [Hl H] E. split; [exact Hl |].
  intros k Hk. rewrite <- E by exact Hk. now apply H.
Qed.

Lemma tabulates_getitem {A : Type} (len : nat) (l : list A) (g : Z -> A) i :
  tabulates len l g -> (0 <= i < Z.of_nat len)%Z -> getitem l i = Some (g i).
Proof.
  intros [Hl H] Hi. rewrite getitem_in_range by (rewrite Hl; exact Hi).
  now apply H.
Qed.

Lemma tabulates_setitem {A : Type} (len : nat) (l : list A) (g : Z -> A) i x :
  tabulates len l g -> (0 <= i < Z.of_nat len)%Z ->
  exists l', setitem l i x = Some l' /\
    tabulates len l' (fun k => if (k =? i)%Z then x else g k).
Proof.
  intros [Hl H] Hi. rewrite setitem_in_range by (rewrite Hl; exact Hi).
  eexists; split; [reflexivity |]. split.
  - now rewrite length_update.
  - intros k Hk. destruct (Z.eqb_spec k i) as [-> | Hne].
    + apply nth_error_update_same. lia.
    + rewrite nth_error_update_other by lia. now apply H.
Qed.

Lemma iadd_tabulates (len : nat) (forces : list vec) (g : Z -> vec) i f :
  tabulates len forces g -> (0 <= i < Z.of_nat len)%Z ->
  exists forces', iadd forces i f = Some forces' /\
    tabulates len forces'
      (fun k => g k + (if (k =? i)%Z then f else zeros))%V.
Proof.
  intros Ht Hi. unfold iadd.
  rewrite (tabulates_getitem _ _ _ _ Ht Hi). simpl.
  destruct (tabulates_setitem _ _ _ i (g i + f)%V Ht Hi) as (l' & E & Ht').
  exists l'. split; [exact E |].
  apply (tabulates_ext _ _ _ _ Ht'). intros k _.
  destruct (Z.eqb_spec k i) as [-> | _];
    [reflexivity | now rewrite vadd_zeros_r].
Qed.

Section ForceLoops.

Variable objects : list Body.

Let len : nat := length objects.
Let num_objects : Z := Z.of_nat (length objects).

Lemma objects_getitem i :
  (0 <= i < num_objects)%Z ->
  exists obj, getitem objects i = Some obj /\
    nth_error objects (Z.to_nat i) = Some obj.
Proof.
  intros Hi. rewrite getitem_in_range by exact Hi.
  destruct (nth_error objects (Z.to_nat i)) as [obj |] eqn:E; [eauto |].
  apply nth_error_None in E. subst num_objects. lia.
Qed.

Lemma accumulate_pair_tabulates (forces : list vec) (g : Z -> vec) i1 i2 :
  tabulates len forces g ->
  (0 <= i1 < num_objects)%Z -> (0 <= i2 < num_objects)%Z ->
  exists forces', accumulate_pair objects i1 i2 forces = Some forces' /\
    tabulates len forces' (fun k => g k + contribution objects i1 i2 k)%V.
Proof.
  intros Ht H1 H2. unfold accumulate_pair.
  destruct (objects_getitem i1 H1) as (obj1 & -> & E1).
  destruct (objects_getitem i2 H2) as (obj2 & -> & E2). simpl.
  destruct (iadd_tabulates len forces g i1 (pair_force obj1 obj2) Ht H1)
    as (forces1 & -> & Ht1). simpl.
  destruct (iadd_tabulates len forces1 _ i2 (- pair_force obj1 obj2)%V Ht1 H2)
    as (forces2 & -> & Ht2).
  exists forces2. split; [reflexivity |].
  apply (tabulates_ext _ _ _ _ Ht2). intros k _.
  unfold contribution, pair_at. rewrite E1, E2.
  now rewrite vadd_assoc.
Qed.

Lemma inner_loop_tabulates (i2s : list Z) (forces : list vec) (g : Z -> vec) i1 :
  tabulates len forces g ->
  (0 <= i1 < num_objects)%Z ->
  (forall i2, In i2 i2s -> (0 <= i2 < num_objects)%Z) ->
  exists forces',
    for_each i2s (accumulate_pair objects i1) forces = Some forces' /\
    tabulates len forces'
      (fun k => g k +
         vsum (map (fun i2 => contribution objects i1 i2 k) i2s))%V.
Proof.
  intros Ht H1. revert forces g Ht.
  induction i2s as [| i2 i2s IH]; intros forces g Ht Hin; simpl.
  - exists forces. split; [reflexivity |].
    apply (tabulates_ext _ _ _ _ Ht). intros k _. now rewrite vadd_zeros_r.
  - destruct (accumulate_pair_tabulates forces g i1 i2 Ht H1)
      as (forces1 & -> & Ht1); [apply Hin; now left |]. simpl.
    destruct (IH forces1 _ Ht1) as (forces' & E & Ht');
      [intros; apply Hin; now right |].
    exists forces'. split; [exact E |].
    apply (tabulates_ext _ _ _ _ Ht'). intros k _.
    fold (vsum (map (fun i2 => contribution objects i1 i2 k) i2s)).
    now rewrite vadd_assoc.
Qed.

Lemma outer_loop_tabulates (i1s : list Z) (forces : list vec) (g : Z -> vec) :
  tabulates len forces g ->
  (forall i1, In i1 i1s -> (0 <= i1 < num_objects)%Z) ->
  exists forces',
    for_each i1s (fun i1 forces =>
      for_each (range (i1 + 1) num_objects)
        (accumulate_pair objects i1) forces) forces = Some forces' /\
    tabulates len forces'
      (fun k => g k +
         vsum (map (fun i1 =>
           vsum (map (fun i2 => contribution objects i1 i2 k)
                   (range (i1 + 1) num_objects))) i1s))%V.
Proof.
  revert forces g.
  induction i1s as [| i1 i1s IH]; intros forces g Ht Hin; simpl.
  - exists forces. split; [reflexivity |].
    apply (tabulates_ext _ _ _ _ Ht). intros k _. now rewrite vadd_zeros_r.
  - assert (H1 : (0 <= i1 < num_objects)%Z) by (apply Hin; now left).
    destruct (inner_loop_tabulates (range (i1 + 1) num_objects) forces g i1
                Ht H1) as (forces1 & -> & Ht1).
    { intros i2 Hi2. apply in_range in Hi2. lia. }
    simpl.
    destruct (IH forces1 _ Ht1) as (forces' & E & Ht');
      [intros; apply Hin; now right |].
    exists forces'. split; [exact E |].
    apply (tabulates_ext _ _ _ _ Ht'). intros k _.
    match goal with |- context [vsum (map ?f i1s)] =>
      fold (vsum (map f i1s)) end.
    now rewrite vadd_assoc.
Qed.

End ForceLoops.

Lemma tabulates_nth {A : Type} (l : list A) (d : A) :
  tabulates (length l) l (fun k => nth (Z.to_nat k) l d).
Proof.
  split; [reflexivity |]. intros k Hk. apply nth_error_nth'. lia.
Qed.

Lemma assign_loop_tabulates (len : nat) (forces : list vec) (g : Z -> vec)
    (ks : list Z) (objs : list Body) (h : Z -> Body) :
  tabulates len forces g -> tabulates len objs h ->
  (forall i, In i ks -> (0 <= i < Z.of_nat len)%Z) ->
  exists objs', for_each ks (assign_force forces) objs = Some objs' /\
    tabulates len objs'
      (fun k => if existsb (Z.eqb k) ks then set_force (h k) (g k) else h k).
Proof.
  intros Hf. revert objs h.
  induction ks as [| i ks IH]; intros objs h Ho Hin; simpl.
  - exists objs. split; [reflexivity | exact Ho].
  - assert (Hi : (0 <= i < Z.of_nat len)%Z) by (apply Hin; now left).
    unfold assign_force at 1.
    rewrite (tabulates_getitem _ _ _ _ Ho Hi),
      (tabulates_getitem _ _ _ _ Hf Hi). simpl.
    destruct (tabulates_setitem _ _ _ i (set_force (h i) (g i)) Ho Hi)
      as (objs1 & -> & Ho1). simpl.
    destruct (IH objs1 _ Ho1) as (objs' & E & Ho');
      [intros; apply Hin; now right |].
    exists objs'. split; [exact E |].
    apply (tabulates_ext _ _ _ _ Ho'). intros k _.
    destruct (Z.eqb_spec k i) as [-> | _]; simpl; [| reflexivity].
    now destruct (existsb (Z.eqb i) ks).
Qed.

Lemma existsb_range k lo hi :
  (lo <= k < hi)%Z -> existsb (Z.eqb k) (range lo hi) = true.
Proof.
  intros H. apply existsb_exists. exists k. split.
  - now apply in_range.
  - apply Z.eqb_refl.
Qed.

(** The force solver returns, and what it returns: every object with its
    force set to what the loops accumulated from zero. *)
Lemma calculate_forces_accumulated (objects : list Body) :
  exists objs', calculate_forces objects = Some objs' /\
    length objs' = length objects /\
    forall k obj, nth_error objects k = Some obj ->
      nth_error objs' k
      = Some (set_force obj (zeros + accumulated objects (Z.of_nat k))%V).
Proof.
  unfold calculate_forces.
  assert (H0 : tabulates (length objects) (map (fun _ : Body => zeros) objects)
                 (fun _ => zeros)).
  { split; [apply length_map |]. intros k Hk.
    rewrite nth_error_map.
    destruct (nth_error objects (Z.to_nat k)) eqn:E; [reflexivity |].
    apply nth_error_None in E. lia. }
  destruct (outer_loop_tabulates objects
              (range 0 (Z.of_nat (length objects) - 1)) _ _ H0)
    as (forces & -> & Hf).
  { intros i1 Hi1. apply in_range in Hi1. lia. }
  simpl.
  set (d := mkBody zeros zeros 0 0 zeros Trail_init).
  destruct (assign_loop_tabulates (length objects) forces _
              (range 0 (Z.of_nat (length objects))) objects _
              Hf (tabulates_nth objects d))
    as (objs' & -> & [Hl Ho]).
  { intros i Hi. apply in_range in Hi. exact Hi. }
  exists objs'. split; [reflexivity |]. split; [exact Hl |].
  intros k obj Hk.
  assert (Hlt : (k < length objects)%nat) by (apply nth_error_Some; congruence).
  specialize (Ho (Z.of_nat k) ltac:(lia)).
  rewrite Nat2Z.id in Ho. rewrite Ho.
  rewrite existsb_range by lia.
  rewrite (nth_error_nth _ _ d Hk). reflexivity.
Qed.

(** ** The accumulated sums *)

Lemma vsum_indicator_out (h : Z -> vec) (i : Z) (l : list Z) :
  (forall b, In b l -> b <> i) ->
  vsum (map (fun b => if (i =? b)%Z then h b else zeros) l) = zeros.
Proof.
  intros H.
  transitivity (vsum (map (fun _ : Z => zeros) l)); [| apply vsum_zeros].
  apply vsum_map_ext.
  intros b Hb. destruct (Z.eqb_spec i b) as [-> | _]; [| reflexivity].
  now destruct (H b Hb).
Qed.

Lemma vsum_indicator (h : Z -> vec) (i lo hi : Z) :
  vsum (map (fun b => if (i =? b)%Z then h b else zeros) (range lo hi))
  = if ((lo <=? i) && (i <? hi))%Z then h i else zeros.
Proof.
  destruct (Z.leb_spec lo i) as [Hlo | Hlo];
    [destruct (Z.ltb_spec i hi) as [Hhi | Hhi] |]; simpl.
  - rewrite (range_split lo i hi), (range_first i hi) by lia.
    rewrite map_app, vsum_app. simpl map. rewrite vsum_cons.
    rewrite !vsum_indicator_out
      by (intros b Hb; apply in_range in Hb; lia).
    rewrite Z.eqb_refl. now rewrite vadd_zeros_l, vadd_zeros_r.
  - apply vsum_indicator_out. intros b Hb. apply in_range in Hb. lia.
  - apply vsum_indicator_out. intros b Hb. apply in_range in Hb. lia.
Qed.

Lemma inner_sum (objects : list Body) (a i n : Z) :
  vsum (map (fun b => contribution objects a b i) (range (a + 1) n))
  = ((if (i =? a)%Z then vsum (map (pair_at objects a) (range (a + 1) n))
      else zeros) +
     (if ((a + 1 <=? i) && (i <? n))%Z then - pair_at objects a i
      else zeros))%V.
Proof.
  unfold contribution.
  rewrite (vsum_map_add
             (fun b => if (i =? a)%Z then pair_at objects a b else zeros)
             (fun b => if (i =? b)%Z then (- pair_at objects a b)%V else zeros)).
  f_equal.
  - destruct (i =? a)%Z; [reflexivity | apply vsum_zeros].
  - apply (vsum_indicator (fun b => (- pair_at objects a b)%V)).
Qed.

Lemma accumulated_sums (objects : list Body) (i : Z) :
  (0 <= i < Z.of_nat (length objects))%Z ->
  accumulated objects i
  = (vsum (map (pair_at objects i)
             (range (i + 1) (Z.of_nat (length objects)))) +
     vsum (map (fun a => - pair_at objects a i) (range 0 i)))%V.
Proof.
  intros Hi. unfold accumulated.
  set (n := Z.of_nat (length objects)) in *.
  rewrite (vsum_map_ext _ _ _ (fun a _ => inner_sum objects a i n)).
  rewrite (vsum_map_add
    (fun a => if (i =? a)%Z
              then vsum (map (pair_at objects a) (range (a + 1) n))
              else zeros)
    (fun a => if ((a + 1 <=? i) && (i <? n))%Z
              then (- pair_at objects a i)%V else zeros)).
  f_equal.
  - rewrite (vsum_indicator
      (fun a => vsum (map (pair_at objects a) (range (a + 1) n)))).
    destruct (Z.leb_spec 0 i) as [_ | ?]; [| lia].
    destruct (Z.ltb_spec i (n - 1)) as [_ | Hn]; simpl; [reflexivity |].
    rewrite range_empty by lia. reflexivity.
  - rewrite (range_split 0 i (n - 1)) by lia.
    rewrite map_app, vsum_app.
    rewrite (vsum_map_ext _ (fun a => (- pair_at objects a i)%V) (range 0 i)).
    + rewrite (vsum_map_ext _ (fun _ => zeros) (range i (n - 1))).
      * now rewrite vsum_zeros, vadd_zeros_r.
      * intros a Ha. apply in_range in Ha.
        destruct (Z.leb_spec (a + 1) i); [lia | reflexivity].
    + intros a Ha. apply in_range in Ha.
      destruct (Z.leb_spec (a + 1) i); [| lia].
      destruct (Z.ltb_spec i n); [reflexivity | lia].
Qed.

Lemma map_nth_seq {A B : Type} (l : list A) (F : option A -> B) (m : nat) :
  (m <= length l)%nat ->
  map (fun k => F (nth_error l k)) (seq 0 m)
  = map (fun x => F (Some x)) (firstn m l).
Proof.
  revert m. induction l as [| x l IH]; intros [| m] H; simpl in *;
    try reflexivity; try lia.
  f_equal. rewrite <- seq_shift, map_map. apply IH. lia.
Qed.

Lemma map_nth_range {A B : Type} (l : list A) (F : option A -> B)
    (lo hi : nat) :
  (lo <= hi <= length l)%nat ->
  map (fun k => F (nth_error l (Z.to_nat k)))
    (range (Z.of_nat lo) (Z.of_nat hi))
  = map (fun x => F (Some x)) (firstn (hi - lo) (skipn lo l)).
Proof.
  intros H. unfold range. rewrite map_map.
  replace (Z.to_nat (Z.of_nat hi - Z.of_nat lo)) with (hi - lo)%nat by lia.
  rewrite <- map_nth_seq by (rewrite length_skipn; lia).
  apply map_ext. intros k.
  rewrite nth_error_skipn. do 2 f_equal. lia.
Qed.

Lemma pair_at_after (objects : list Body) (i : nat) (obj : Body) :
  nth_error objects i = Some obj ->
  vsum (map (pair_at objects (Z.of_nat i))
          (range (Z.of_nat i + 1) (Z.of_nat (length objects))))
  = vsum (map (pair_force obj) (skipn (S i) objects)).
Proof.
  intros Hi.
  assert (Hlt : (i < length objects)%nat) by (apply nth_error_Some; congruence).
  replace (Z.of_nat i + 1)%Z with (Z.of_nat (S i)) by lia.
  unfold pair_at. rewrite Nat2Z.id, Hi.
  rewrite (map_nth_range objects
             (fun o => match o with
                       | Some obj2 => pair_force obj obj2
                       | None => zeros
                       end)) by lia.
  rewrite firstn_all2 by (rewrite length_skipn; lia).
  reflexivity.
Qed.

Lemma pair_at_before (objects : list Body) (i : nat) (obj : Body) :
  nth_error objects i = Some obj ->
  vsum (map (fun a => - pair_at objects a (Z.of_nat i))%V
          (range 0 (Z.of_nat i)))
  = vsum (map (fun obj1 => - pair_force obj1 obj)%V (firstn i objects)).
Proof.
  intros Hi.
  assert (Hlt : (i < length objects)%nat) by (apply nth_error_Some; congruence).
  pose (F := fun o : option Body =>
               (- match o with
                  | Some obj1 => pair_force obj1 obj
                  | None => zeros
                  end)%V).
  transitivity
    (vsum (map (fun k => F (nth_error objects (Z.to_nat k)))
             (range (Z.of_nat 0) (Z.of_nat i)))).
  - apply vsum_map_ext. intros a _.
    unfold pair_at. rewrite Nat2Z.id, Hi. reflexivity.
  - rewrite map_nth_range by lia.
    rewrite Nat.sub_0_r. reflexivity.
Qed.

(** ** Newton's law *)

Lemma others_positions (objects : list Body) (i : nat) (obj : Body) :
  distinct_positions objects -> nth_error objects i = Some obj ->
  forall o, In o (others i objects) -> pos obj <> pos o.
Proof.
  intros Hd Hi o Ho E. unfold distinct_positions in Hd.
  rewrite <- (firstn_skipn_middle i objects Hi), map_app in Hd.
  simpl in Hd. apply NoDup_remove_2 in Hd. apply Hd.
  rewrite <- map_app, E. now apply in_map.
Qed.

(** C1: when the positions are pairwise distinct, [calculate_forces]
    returns, and sets the force of every body to the sum, over the other
    bodies of the list, each taken once, of the vector of magnitude
    [G * m_i * m_j / d ^ 2] directed from the body toward the other one;
    the force the body had before does not enter the result. *)
Theorem calculate_forces_newton (objects : list Body) :
  distinct_positions objects ->
  exists objs', calculate_forces objects = Some objs' /\
    length objs' = length objects /\
    forall i obj, nth_error objects i = Some obj ->
      exists obj', nth_error objs' i = Some obj' /\
        obj' = set_force obj (net_gravity i obj objects) /\
        force obj' = vsum (map (gravity obj) (others i objects)).
Proof.
  intros Hd.
  destruct (calculate_forces_accumulated objects) as (objs' & E & Hl & H).
  exists objs'. split; [exact E |]. split; [exact Hl |].
  intros i obj Hi.
  assert (Hlt : (i < length objects)%nat) by (apply nth_error_Some; congruence).
  assert (Hf : (zeros + accumulated objects (Z.of_nat i))%V
               = net_gravity i obj objects).
  { rewrite accumulated_sums by lia.
    rewrite (pair_at_after objects i obj Hi), (pair_at_before objects i obj Hi).
    unfold net_gravity, others. rewrite map_app, vsum_app.
    rewrite (vsum_map_ext (pair_force obj) (gravity obj)).
    - rewrite (vsum_map_ext (fun obj1 => (- pair_force obj1 obj)%V)
                 (gravity obj)).
      + rewrite vadd_zeros_l. apply vadd_comm.
      + intros o Ho.
        rewrite pair_force_gravity, <- gravity_antisym; [reflexivity |].
        apply not_eq_sym. apply (others_positions objects i obj Hd Hi).
        unfold others. apply in_or_app. now left.
    - intros o Ho. apply pair_force_gravity.
      apply (others_positions objects i obj Hd Hi).
      unfold others. apply in_or_app. now right. }
  exists (set_force obj (net_gravity i obj objects)).
  rewrite (H i obj Hi), Hf. auto.
Qed.

Lemma MainWidget_init_distinct : distinct_positions (objects MainWidget_init).
Proof.
  unfold distinct_positions, MainWidget_init, DIST_MERCURY, DIST_VENUS,
    DIST_EARTH. simpl.
  repeat (apply NoDup_cons;
          [simpl; intros Hin;
           repeat (destruct Hin as [Hin | Hin];
                   [injection Hin; intros; lra |]);
           exact Hin |]).
  apply NoDup_nil.
Defined.

(** The hypothesis of [calculate_forces_newton] holds of the four bodies
    the program starts with. *)
Lemma calculate_forces_newton_witness :
  distinct_positions (objects MainWidget_init) /\
  exists objs', calculate_forces (objects MainWidget_init) = Some objs' /\
    length objs' = length (objects MainWidget_init) /\
    forall i obj, nth_error (objects MainWidget_init) i = Some obj ->
      exists obj', nth_error objs' i = Some obj' /\
        obj' = set_force obj (net_gravity i obj (objects MainWidget_init)) /\
        force obj' = vsum (map (gravity obj) (others i (objects MainWidget_init))).
Proof.
  split.
  - exact MainWidget_init_distinct.
  - apply (calculate_forces_newton (objects MainWidget_init)).
    exact MainWidget_init_distinct.
Defined.

(** ** The integration step *)

(** C3: one [update_state] sets the position to [pos + vel * dt] and the
    velocity to [vel + (force / mass) * dt], both right-hand sides being
    read in the state before the step: the position assigned first does
    not enter the velocity, and neither the force nor the new velocity
    enters the position. *)
Theorem update_state_explicit_euler (self : Body) (dt : R) :
  pos (update_state self dt) = (pos self + vscale (vel self) dt)%V /\
  vel (update_state self dt)
  = (vel self + vscale (vdiv (force self) (mass self)) dt)%V /\
  (forall f, pos (update_state (set_force self f) dt)
             = pos (update_state self dt)) /\
  (forall p, vel (update_state (with_pos self p) dt)
             = vel (update_state self dt)).
Proof.
  repeat split.
Qed.

Lemma calculate_forces_keeps {B : Type} (proj : Body -> B)
    (objects objs' : list Body) :
  (forall obj f, proj (set_force obj f) = proj obj) ->
  calculate_forces objects = Some objs' ->
  map proj objs' = map proj objects.
Proof.
  intros Hp E.
  destruct (calculate_forces_accumulated objects) as (objs & E' & Hl & H).
  rewrite E in E'. injection E' as <-.
  apply nth_error_ext. intros k. rewrite !nth_error_map.
  destruct (nth_error objects k) as [obj |] eqn:Ek.
  - rewrite (H k obj Ek). simpl. now rewrite Hp.
  - apply nth_error_None in Ek.
    replace (nth_error objs' k) with (@None Body); [reflexivity |].
    symmetry. apply nth_error_None. lia.
Qed.

(** C10: [update_state] leaves the mass, the radius and the stored force
    (and the trail) of the body as they are, and [calculate_forces], which
    always returns, leaves the positions, velocities, masses and radii
    (and trails) of all the bodies as they are. *)
Theorem frame_conditions :
  (forall (self : Body) (dt : R),
     mass (update_state self dt) = mass self /\
     radius (update_state self dt) = radius self /\
     force (update_state self dt) = force self /\
     trail (update_state self dt) = trail self) /\
  (forall objects : list Body,
     exists objs', calculate_forces objects = Some objs' /\
       length objs' = length objects /\
       map pos objs' = map pos objects /\
       map vel objs' = map vel objects /\
       map mass objs' = map mass objects /\
       map radius objs' = map radius objects /\
       map trail objs' = map trail objects).
Proof.
  split.
  - intros self dt. repeat split.
  - intros objects.
    destruct (calculate_forces_accumulated objects) as (objs' & E & Hl & _).
    exists objs'. repeat split; auto;
      apply (calculate_forces_keeps _ objects objs'); auto.
Qed.

(** ** Equal and opposite contributions *)

Lemma nat_index_tabulates {A : Type} (l : list A) (g : Z -> A) (k : nat) :
  tabulates (length l) l g -> (k < length l)%nat ->
  nth_error l k = Some (g (Z.of_nat k)).
Proof.
  intros [_ H] Hk. rewrite <- (Nat2Z.id k) at 1. apply H. lia.
Qed.

Lemma accumulate_pair_opposite (objects : list Body) (forces : list vec)
    (i j : nat) (obj_i obj_j : Body) :
  length forces = length objects -> i <> j ->
  nth_error objects i = Some obj_i -> nth_error objects j = Some obj_j ->
  exists forces',
    accumulate_pair objects (Z.of_nat i) (Z.of_nat j) forces = Some forces' /\
    length forces' = length forces /\
    forall k a, nth_error forces k = Some a ->
      nth_error forces' k
      = Some (if (k =? i)%nat then (a + pair_force obj_i obj_j)%V
              else if (k =? j)%nat then (a + - pair_force obj_i obj_j)%V
              else a).
Proof.
  intros Hl Hij Hi Hj.
  assert (Hi' : (i < length objects)%nat) by (apply nth_error_Some; congruence).
  assert (Hj' : (j < length objects)%nat) by (apply nth_error_Some; congruence).
  destruct (accumulate_pair_tabulates objects forces
              (fun k => nth (Z.to_nat k) forces zeros)
              (Z.of_nat i) (Z.of_nat j))
    as (forces' & E & Ht); try lia.
  { rewrite <- Hl. apply tabulates_nth. }
  exists forces'. split; [exact E |]. split; [destruct Ht; lia |].
  intros k a Hk.
  assert (Hk' : (k < length forces)%nat) by (apply nth_error_Some; congruence).
  rewrite <- Hl in Ht. assert (Hl' : length forces' = length forces) by apply Ht.
  rewrite <- Hl' in Ht.
  rewrite (nat_index_tabulates forces' _ k Ht) by lia.
  rewrite Nat2Z.id, (nth_error_nth _ _ zeros Hk).
  unfold contribution, pair_at. rewrite !Nat2Z.id, Hi, Hj. f_equal.
  destruct (Nat.eqb_spec k i) as [-> | Hki].
  - rewrite Z.eqb_refl.
    destruct (Z.eqb_spec (Z.of_nat i) (Z.of_nat j)); [lia |].
    now rewrite vadd_zeros_r.
  - destruct (Z.eqb_spec (Z.of_nat k) (Z.of_nat i)); [lia |].
    rewrite vadd_zeros_l.
    destruct (Nat.eqb_spec k j) as [-> | Hkj].
    + now rewrite Z.eqb_refl.
    + destruct (Z.eqb_spec (Z.of_nat k) (Z.of_nat j)); [lia |].
      now rewrite vadd_zeros_r.
Qed.

Lemma accumulated_two (obj1 obj2 : Body) :
  (zeros + accumulated [obj1; obj2] 0)%V = pair_force obj1 obj2 /\
  (zeros + accumulated [obj1; obj2] 1)%V = (- pair_force obj1 obj2)%V.
Proof.
  split.
  - rewrite accumulated_sums by (simpl; lia).
    unfold range, pair_at. simpl. vec_ring.
  - rewrite accumulated_sums by (simpl; lia).
    unfold range, pair_at. simpl. vec_ring.
Qed.

(** C2: the iteration of the loops for two distinct objects [i] and [j]
    adds a vector [f] to the accumulator of [i] and its exact negation
    [- f] to the accumulator of [j], and touches no other accumulator;
    hence the forces assigned to a list of two bodies are the negation of
    one another. *)
Theorem forces_equal_and_opposite :
  (forall (objects : list Body) (forces : list vec) (i j : nat)
          (obj_i obj_j : Body) (a_i a_j : vec),
     length forces = length objects -> i <> j ->
     nth_error objects i = Some obj_i -> nth_error objects j = Some obj_j ->
     nth_error forces i = Some a_i -> nth_error forces j = Some a_j ->
     exists f forces',
       accumulate_pair objects (Z.of_nat i) (Z.of_nat j) forces
         = Some forces' /\
       nth_error forces' i = Some (a_i + f)%V /\
       nth_error forces' j = Some (a_j + - f)%V /\
       forall k, k <> i -> k <> j ->
         nth_error forces' k = nth_error forces k) /\
  (forall obj1 obj2 : Body,
     exists obj1' obj2',
       calculate_forces [obj1; obj2] = Some [obj1'; obj2'] /\
       force obj1' = (- force obj2')%V).
Proof.
  split.
  - intros objects forces i j obj_i obj_j a_i a_j Hl Hij Hi Hj Hai Haj.
    destruct (accumulate_pair_opposite objects forces i j obj_i obj_j
                Hl Hij Hi Hj) as (forces' & E & Hl' & H).
    exists (pair_force obj_i obj_j), forces'.
    split; [exact E |]. split; [| split].
    + rewrite (H i a_i Hai). now rewrite Nat.eqb_refl.
    + rewrite (H j a_j Haj).
      destruct (Nat.eqb_spec j i); [congruence |]. now rewrite Nat.eqb_refl.
    + intros k Hki Hkj.
      destruct (nth_error forces k) as [a |] eqn:Ek.
      * rewrite (H k a Ek).
        destruct (Nat.eqb_spec k i); [congruence |].
        destruct (Nat.eqb_spec k j); [congruence | reflexivity].
      * apply nth_error_None. apply nth_error_None in Ek. lia.
  - intros obj1 obj2.
    destruct (calculate_forces_accumulated [obj1; obj2])
      as (objs' & E & Hl & H).
    destruct (accumulated_two obj1 obj2) as [E1 E2].
    assert (H1 := H 0%nat obj1 eq_refl). assert (H2 := H 1%nat obj2 eq_refl).
    simpl Z.of_nat in H1, H2. rewrite E1 in H1. rewrite E2 in H2.
    destruct objs' as [| obj1' [| obj2' [| ? ?]]]; try discriminate.
    simpl in H1, H2. injection H1 as ->. injection H2 as ->.
    exists (set_force obj1 (pair_force obj1 obj2)),
      (set_force obj2 (- pair_force obj1 obj2)%V).
    split; [exact E |]. simpl. now rewrite vneg_vneg.
Qed.

(** ** The batch of steps *)

Lemma for_each_const {A B S : Type} (xs : list A) (ys : list B)
    (f : S -> option S) (s : S) :
  length xs = length ys ->
  for_each xs (fun _ => f) s = for_each ys (fun _ => f) s.
Proof.
  revert ys s. induction xs as [| x xs IH]; intros [| y ys] s H;
    simpl in *; try discriminate; [reflexivity |].
  destruct (f s); simpl; auto.
Qed.

Lemma length_range lo hi : length (range lo hi) = Z.to_nat (hi - lo).
Proof. unfold range. now rewrite length_map, length_seq. Qed.

Lemma advance_S (n : nat) (dt : R) (w : MainWidget) :
  advance (S n) dt w = w1 <- simulation_step dt w ;; advance n dt w1.
Proof.
  unfold advance. rewrite range_first by lia. simpl for_each.
  destruct (simulation_step dt w) as [w1 |]; simpl; [| reflexivity].
  apply for_each_const. rewrite !length_range. lia.
Qed.

Lemma advance_snoc (n : nat) (dt : R) (w : MainWidget) :
  advance (S n) dt w = w1 <- advance n dt w ;; simulation_step dt w1.
Proof.
  unfold advance.
  rewrite (range_split 0 (Z.of_nat n) (Z.of_nat (S n))) by lia.
  rewrite for_each_app.
  destruct (for_each (range 0 (Z.of_nat n)) _ w) as [w1 |]; simpl;
    [| reflexivity].
  rewrite range_first, range_empty by lia. simpl.
  now destruct (simulation_step dt w1).
Qed.

Lemma simulation_step_returns (dt : R) (w : MainWidget) :
  exists objs, calculate_forces (objects w) = Some objs /\
    simulation_step dt w
    = Some (mkMainWidget (time w + dt)
              (map (fun obj => update_state obj dt) objs)).
Proof.
  destruct (calculate_forces_accumulated (objects w)) as (objs & E & _).
  exists objs. split; [exact E |]. unfold simulation_step. now rewrite E.
Qed.

Lemma advance_returns (n : nat) (dt : R) (w : MainWidget) :
  exists w', advance n dt w = Some w' /\ time w' = time w + INR n * dt.
Proof.
  revert w. induction n as [| n IH]; intros w.
  - exists w. split; [reflexivity | simpl; ring].
  - destruct (simulation_step_returns dt w) as (objs & _ & E).
    rewrite advance_S, E. simpl bind.
    destruct (IH (mkMainWidget (time w + dt)
                    (map (fun obj => update_state obj dt) objs)))
      as (w' & E' & Ht).
    exists w'. split; [exact E' |].
    rewrite Ht, S_INR. simpl. ring.
Qed.

Lemma set_pos_returns (t : Trail) (p : vec) : exists t', set_pos t p = Some t'.
Proof.
  destruct (insert_pos_length t p) as (pts & E & _).
  unfold set_pos. rewrite E. simpl. eauto.
Qed.

Lemma update_all_graphics_returns (objs : list Body) :
  exists objs', update_all_graphics objs = Some objs'.
Proof.
  induction objs as [| obj objs [objs' IH]]; simpl; [eauto |].
  unfold update_graphics.
  destruct (set_pos_returns (trail obj) (pos obj)) as (t & ->). simpl.
  rewrite IH. simpl. eauto.
Qed.

(** C8: a batch of [n_steps] steps runs, [n_steps] times in order, the
    step that increments the time by [dt], runs the force solver over all
    the bodies and then integrates every body by [dt]; it returns, and the
    time is then [t + n_steps * dt], larger than [t] when [dt] is positive
    and there is at least one step.  [on_update] runs the batch of 100
    steps of 100 seconds, whatever frame time it is given. *)
Theorem advance_runs_steps (n_steps : nat) (dt : R) (w : MainWidget) :
  advance 0 dt w = Some w /\
  advance (S n_steps) dt w
  = (w1 <- simulation_step dt w ;; advance n_steps dt w1) /\
  (exists objs, calculate_forces (objects w) = Some objs /\
     simulation_step dt w
     = Some (mkMainWidget (time w + dt)
               (map (fun obj => update_state obj dt) objs))) /\
  (exists w', advance n_steps dt w = Some w' /\
     time w' = time w + INR n_steps * dt /\
     (0 < dt -> (0 < n_steps)%nat -> time w < time w')) /\
  (forall frame_dt, exists w1 w',
     advance 100 100 w = Some w1 /\
     on_update w frame_dt = Some w' /\
     time w' = time w1 /\ time w' = time w + 100 * 100 /\ time w < time w').
Proof.
  split; [reflexivity |]. split; [apply advance_S |].
  split; [apply simulation_step_returns |]. split.
  - destruct (advance_returns n_steps dt w) as (w' & E & Ht).
    exists w'. split; [exact E |]. split; [exact Ht |].
    intros Hdt Hn. rewrite Ht.
    assert (0 < INR n_steps) by (apply lt_0_INR; exact Hn). nra.
  - intros frame_dt.
    destruct (advance_returns 100 100 w) as (w1 & E & Ht).
    destruct (update_all_graphics_returns (objects w1)) as (objs' & Eg).
    exists w1, (mkMainWidget (time w1) objs').
    split; [exact E |]. unfold on_update, STEPS_PER_RENDER, DELTA_T.
    rewrite E. simpl bind. rewrite Eg. simpl.
    split; [reflexivity |]. split; [reflexivity |].
    rewrite Ht. replace (INR 100) with 100 by (simpl; lra). lra.
Qed.

(** ** No pairs *)

Lemma accumulated_few (objects : list Body) (k : Z) :
  (length objects <= 1)%nat -> accumulated objects k = zeros.
Proof.
  intros H. unfold accumulated. rewrite range_empty by lia. reflexivity.
Qed.

Lemma calculate_forces_few (objects : list Body) :
  (length objects <= 1)%nat ->
  calculate_forces objects
  = Some (map (fun obj => set_force obj zeros) objects).
Proof.
  intros H.
  destruct (calculate_forces_accumulated objects) as (objs' & E & Hl & Hn).
  rewrite E. f_equal. apply nth_error_ext. intros k.
  rewrite nth_error_map.
  destruct (nth_error objects k) as [obj |] eqn:Ek; simpl.
  - rewrite (Hn k obj Ek), accumulated_few by exact H.
    now rewrite vadd_zeros_l.
  - apply nth_error_None. apply nth_error_None in Ek. lia.
Qed.

Lemma update_state_at_rest (obj : Body) (dt : R) :
  force obj = zeros -> vel (update_state obj dt) = vel obj.
Proof.
  intros Hf. unfold update_state. simpl. rewrite Hf.
  apply vec_eq; vec_unfold; unfold Rdiv; ring.
Qed.

(** ** Momentum *)

Lemma for_each_invariant {A S : Type} (P : S -> Prop)
    (body : A -> S -> option S) (xs : list A) (s s' : S) :
  (forall x s s', P s -> body x s = Some s' -> P s') ->
  P s -> for_each xs body s = Some s' -> P s'.
Proof.
  intros Hb. revert s. induction xs as [| x xs IH]; intros s Hs E; simpl in E.
  - now injection E as <-.
  - destruct (body x s) as [s1 |] eqn:E1; simpl in E; [| discriminate].
    eauto.
Qed.

Lemma iadd_vsum (forces forces' : list vec) (i : Z) (f : vec) :
  iadd forces i f = Some forces' -> vsum forces' = (vsum forces + f)%V.
Proof.
  unfold iadd, getitem, setitem.
  destruct (index (length forces) i) as [k |]; simpl; [| discriminate].
  destruct (nth_error forces k) as [a |] eqn:Ek; simpl; [| discriminate].
  intros [= <-]. now apply vsum_update.
Qed.

Lemma accumulate_pair_vsum (objects : list Body) (i1 i2 : Z)
    (forces forces' : list vec) :
  accumulate_pair objects i1 i2 forces = Some forces' ->
  vsum forces' = vsum forces.
Proof.
  unfold accumulate_pair.
  destruct (getitem objects i1) as [obj1 |]; simpl; [| discriminate].
  destruct (getitem objects i2) as [obj2 |]; simpl; [| discriminate].
  destruct (iadd forces i1 (pair_force obj1 obj2)) as [forces1 |] eqn:E1;
    simpl; [| discriminate].
  intros E2. rewrite (iadd_vsum _ _ _ _ E2), (iadd_vsum _ _ _ _ E1).
  vec_ring.
Qed.

Lemma tabulates_map_eq {A B : Type} (len : nat) (l : list A) (l' : list B)
    (g : Z -> A) (g' : Z -> B) (proj : A -> B) :
  tabulates len l g -> tabulates len l' g' ->
  (forall k, (0 <= k < Z.of_nat len)%Z -> proj (g k) = g' k) ->
  map proj l = l'.
Proof.
  intros [Hl H] [Hl' H'] E. apply nth_error_ext. intros k.
  rewrite nth_error_map.
  destruct (Nat.lt_ge_cases k len) as [Hk | Hk].
  - specialize (H (Z.of_nat k) ltac:(lia)).
    specialize (H' (Z.of_nat k) ltac:(lia)).
    rewrite Nat2Z.id in H, H'. rewrite H, H'. simpl. f_equal. apply E. lia.
  - replace (nth_error l k) with (@None A)
      by (symmetry; apply nth_error_None; lia).
    symmetry. apply nth_error_None. lia.
Qed.

(** The forces that one pass of the force solver assigns add up to zero. *)
Lemma calculate_forces_total (objects objs' : list Body) :
  calculate_forces objects = Some objs' -> vsum (map force objs') = zeros.
Proof.
  intros E.
  assert (H0 : tabulates (length objects) (map (fun _ : Body => zeros) objects)
                 (fun _ => zeros)).
  { split; [apply length_map |]. intros k Hk.
    rewrite nth_error_map.
    destruct (nth_error objects (Z.to_nat k)) eqn:Ek; [reflexivity |].
    apply nth_error_None in Ek. lia. }
  destruct (outer_loop_tabulates objects
              (range 0 (Z.of_nat (length objects) - 1)) _ _ H0)
    as (forces & El & Hf).
  { intros i1 Hi1. apply in_range in Hi1. lia. }
  assert (Hz : vsum forces = zeros).
  { refine (for_each_invariant (fun fs => vsum fs = zeros) _ _ _ _ _ _ El).
    - intros i1 fs fs' Hfs Ei.
      refine (for_each_invariant (fun fs => vsum fs = zeros) _ _ _ _ _ Hfs Ei).
      intros i2 fs1 fs2 Hfs1 E2.
      now rewrite (accumulate_pair_vsum _ _ _ _ _ E2).
    - apply vsum_zeros. }
  set (d := mkBody zeros zeros 0 0 zeros Trail_init).
  destruct (assign_loop_tabulates (length objects) forces _
              (range 0 (Z.of_nat (length objects))) objects _
              Hf (tabulates_nth objects d))
    as (objs & Ea & Ho).
  { intros i Hi. apply in_range in Hi. exact Hi. }
  unfold calculate_forces in E. rewrite El in E. simpl in E.
  rewrite Ea in E. injection E as <-.
  rewrite (tabulates_map_eq _ _ _ _ _ force Ho Hf); [exact Hz |].
  intros k Hk. rewrite existsb_range by lia. reflexivity.
Qed.

Lemma vsum_map_vscale {A : Type} (f : A -> vec) (s : R) (l : list A) :
  vsum (map (fun x => vscale (f x) s) l) = vscale (vsum (map f l)) s.
Proof.
  induction l as [| x l IH]; simpl.
  - vec_ring.
  - fold (vsum (map (fun x => vscale (f x) s) l)) (vsum (map f l)).
    rewrite IH. vec_ring.
Qed.

Lemma update_state_momentum (obj : Body) (dt : R) :
  0 < mass obj ->
  vscale (vel (update_state obj dt)) (mass (update_state obj dt))
  = (vscale (vel obj) (mass obj) + vscale (force obj) dt)%V.
Proof.
  intros Hm. unfold update_state. simpl.
  apply vec_eq; vec_unfold; field; lra.
Qed.

Lemma momentum_update_state (objs : list Body) (dt : R) :
  positive_masses objs ->
  momentum (map (fun obj => update_state obj dt) objs)
  = (momentum objs + vscale (vsum (map force objs)) dt)%V.
Proof.
  intros Hm. unfold momentum. rewrite map_map.
  rewrite (vsum_map_ext _
             (fun obj => vscale (vel obj) (mass obj) + vscale (force obj) dt)%V).
  - rewrite (vsum_map_add (fun obj => vscale (vel obj) (mass obj))
               (fun obj => vscale (force obj) dt)).
    now rewrite vsum_map_vscale.
  - intros obj Hobj. apply update_state_momentum.
    unfold positive_masses in Hm. rewrite Forall_forall in Hm. auto.
Qed.

Lemma positive_masses_same (objs objs' : list Body) :
  map mass objs' = map mass objs ->
  positive_masses objs -> positive_masses objs'.
Proof.
  unfold positive_masses. intros E H.
  apply Forall_map. rewrite E. now apply Forall_map.
Qed.

Lemma simulation_step_momentum (dt : R) (w w' : MainWidget) :
  positive_masses (objects w) -> simulation_step dt w = Some w' ->
  momentum (objects w') = momentum (objects w) /\
  positive_masses (objects w').
Proof.
  intros Hm E. unfold simulation_step in E.
  destruct (calculate_forces (objects w)) as [objs |] eqn:Ec;
    simpl in E; [| discriminate].
  injection E as <-. simpl.
  assert (Hm' : positive_masses objs).
  { apply (positive_masses_same (objects w)); [| exact Hm].
    now apply calculate_forces_keeps. }
  split.
  - rewrite momentum_update_state by exact Hm'.
    rewrite (calculate_forces_total _ _ Ec).
    unfold momentum.
    rewrite (calculate_forces_keeps
               (fun obj => vscale (vel obj) (mass obj)) _ _ ltac:(reflexivity) Ec).
    vec_ring.
  - apply (positive_masses_same objs); [| exact Hm'].
    rewrite map_map. reflexivity.
Qed.

Lemma MainWidget_init_masses : positive_masses (objects MainWidget_init).
Proof.
  unfold positive_masses, MainWidget_init, MASS_SUN, MASS_MERCURY,
    MASS_VENUS, MASS_EARTH. simpl.
  repeat (apply Forall_cons; [simpl; lra |]). apply Forall_nil.
Defined.

(** [forces_equal_and_opposite] at the first iteration of the loops over
    the four bodies the program starts with: the Sun and Mercury, the
    accumulators being zero. *)
Lemma forces_equal_and_opposite_witness :
  exists f forces',
    accumulate_pair (objects MainWidget_init) 0 1 [zeros; zeros; zeros; zeros]
      = Some forces' /\
    nth_error forces' 0 = Some (zeros + f)%V /\
    nth_error forces' 1 = Some (zeros + - f)%V /\
    forall k, k <> 0%nat -> k <> 1%nat ->
      nth_error forces' k = nth_error [zeros; zeros; zeros; zeros] k.
Proof.
  apply (proj1 forces_equal_and_opposite (objects MainWidget_init)
           [zeros; zeros; zeros; zeros] 0%nat 1%nat
           (Body_init (0, 0) (0, 0) MASS_SUN (RAD_SUN * 20))
           (Body_init (DIST_MERCURY, 0) (0, SPEED_MERCURY) MASS_MERCURY
              (RAD_MERCURY * 1000))
           zeros zeros);
    first [reflexivity | discriminate].
Defined.

(** [advance_runs_steps] at the batch of [on_update], from the start of
    the program: the time is 10000 seconds afterwards. *)
Lemma advance_runs_steps_witness :
  exists w', advance 100 100 MainWidget_init = Some w' /\
    time w' = 0 + INR 100 * 100 /\ 0 < time w'.
Proof.
  destruct (advance_runs_steps 100 100 MainWidget_init)
    as (_ & _ & _ & (w' & E & Ht & Hlt) & _).
  exists w'. split; [exact E |]. split; [exact Ht |].
  apply Hlt; [lra | lia].
Defined.

(** * Further properties of the code *)

(** ** World and screen coordinates *)

(** [pos_to_screen] shows the strip of the world of width [WORLD_WIDTH]
    around [WORLD_CENTER] across the width of the window: the centre of the
    world is drawn at the centre of the window, the points [WORLD_WIDTH / 2]
    to its left on the left border and those [WORLD_WIDTH / 2] to its
    right on the right border. *)
Theorem pos_to_screen_window (win : Window) (y : R) :
  pos_to_screen win WORLD_CENTER = (width win / 2, height win / 2) /\
  fst (pos_to_screen win (fst WORLD_CENTER - WORLD_WIDTH / 2, y)) = 0 /\
  fst (pos_to_screen win (fst WORLD_CENTER + WORLD_WIDTH / 2, y))
  = width win.
Proof.
  unfold pos_to_screen, WORLD_CENTER, WORLD_WIDTH. vec_unfold.
  repeat split; try (f_equal; field); field.
Qed.

Lemma norm_vscale (u : vec) (s : R) : 0 <= s -> norm (vscale u s) = norm u * s.
Proof.
  intros Hs. unfold norm, vscale. simpl.
  replace (fst u * s * (fst u * s) + snd u * s * (snd u * s))
    with ((fst u * fst u + snd u * snd u) * (s * s)) by ring.
  rewrite sqrt_mult by nra. now rewrite sqrt_square.
Qed.

Lemma pos_to_screen_difference (win : Window) (p q : vec) :
  (pos_to_screen win p - pos_to_screen win q)%V
  = vscale (p - q)%V (width win / WORLD_WIDTH).
Proof.
  unfold pos_to_screen. apply vec_eq; vec_unfold; ring.
Qed.

(** [pos_to_screen] and [scalar_to_screen] agree: in a window of
    non-negative width, the distance on the screen of the images of two
    points is the image of their distance in the world, horizontally and
    vertically alike (the height of the window plays no part). *)
Theorem pos_to_screen_distance (win : Window) (p q : vec) :
  0 <= width win ->
  norm (pos_to_screen win p - pos_to_screen win q)%V
  = scalar_to_screen win (norm (p - q)%V).
Proof.
  intros Hw. rewrite pos_to_screen_difference.
  unfold scalar_to_screen. apply norm_vscale.
  unfold WORLD_WIDTH. apply Rmult_le_pos; [exact Hw |].
  left. apply Rinv_0_lt_compat. lra.
Qed.

(** The hypothesis of [pos_to_screen_distance] holds of a window of
    800 by 600 pixels. *)
Lemma pos_to_screen_distance_witness :
  0 <= width (mkWindow 800 600) /\
  norm (pos_to_screen (mkWindow 800 600) (DIST_EARTH, 0)
        - pos_to_screen (mkWindow 800 600) (0, 0))%V
  = scalar_to_screen (mkWindow 800 600) (norm ((DIST_EARTH, 0) - (0, 0))%V).
Proof.
  assert (H : 0 <= width (mkWindow 800 600)) by (simpl; lra).
  split; [exact H |].
  exact (pos_to_screen_distance (mkWindow 800 600) (DIST_EARTH, 0) (0, 0) H).
Defined.

Lemma update_circle_centered_center (win : Window) (self : Body) :
  ellipse_center (update_circle win self) = pos_to_screen win (pos self).
Proof.
  unfold ellipse_center, update_circle, pos_to_screen, scalar_to_screen,
    vsub_scalar, WORLD_CENTER.
  apply vec_eq; vec_unfold; field; unfold WORLD_WIDTH; lra.
Qed.

(** The circle of a body is drawn centred on the body: [update_graphics]
    places the corner of the box of the ellipse so that its centre is the
    image of the position of the body, and gives the box the diameter of
    the body on the screen as its two sides. *)
Theorem update_circle_centered (win : Window) (self : Body) :
  ellipse_center (update_circle win self) = pos_to_screen win (pos self) /\
  ellipse_size (update_circle win self)
  = (2 * scalar_to_screen win (radius self),
     2 * scalar_to_screen win (radius self)).
Proof.
  split.
  - apply update_circle_centered_center.
  - unfold update_circle. simpl. f_equal; ring.
Qed.

Lemma fold_left_screen_points (win : Window) (pts : list vec) (acc : list R) :
  fold_left (fun screen_points p =>
               screen_points ++ tolist (pos_to_screen win p)) pts acc
  = acc ++ flat_map (fun p => tolist (pos_to_screen win p)) pts.
Proof.
  revert acc. induction pts as [| p pts IH]; intros acc; simpl.
  - now rewrite app_nil_r.
  - rewrite IH, <- app_assoc. reflexivity.
Qed.

Lemma length_flat_map_tolist (win : Window) (pts : list vec) :
  length (flat_map (fun p => tolist (pos_to_screen win p)) pts)
  = (2 * length pts)%nat.
Proof.
  induction pts as [| p pts IH]; simpl; [reflexivity |]. rewrite IH. lia.
Qed.

(** The line of a trail: [Trail.update_graphics] gives the line the
    screen coordinates of the stored points, x then y, in the order of the
    points, so twice as many numbers as points; for a trail that has
    recorded any sequence of positions that is at most 200 numbers. *)
Theorem trail_line_points (win : Window) (ps : list vec) :
  exists t, record_all Trail_init ps = Some t /\
    Trail_update_graphics win t
    = flat_map (fun p => [fst (pos_to_screen win p);
                          snd (pos_to_screen win p)]) (points t) /\
    length (Trail_update_graphics win t) = (2 * length (points t))%nat /\
    (length (Trail_update_graphics win t) <= 200)%nat.
Proof.
  destruct (record_all_length ps) as (t & E & Hl). unfold trail_cap in Hl.
  exists t. split; [exact E |].
  unfold Trail_update_graphics. rewrite fold_left_screen_points. simpl.
  split; [reflexivity |].
  rewrite length_flat_map_tolist. lia.
Qed.

(** ** More on the trail *)

Lemma remove_old_last (l : list vec) (p : vec) :
  exists l', remove_old (l ++ [p]) = l' ++ [p].
Proof.
  unfold remove_old.
  destruct (Nat.ltb_spec 100 (length (l ++ [p]))) as [H | H];
    [| now exists l].
  rewrite length_app in H. simpl in H.
  destruct l as [| a l]; [simpl in H; lia |].
  exists l. reflexivity.
Qed.

Lemma insert_pos_last (t : Trail) (p : vec) :
  exists l, insert_pos t p = Some (l ++ [p]).
Proof.
  destruct (insert_pos_cases t p)
    as [[_ E] | [(l & q & z & _ & _ & E) | (l & q & z & _ & _ & E)]];
    rewrite E.
  - now exists (points t).
  - exists (l ++ [q]). now rewrite <- app_assoc.
  - exists (l ++ [q; z]). now rewrite <- app_assoc.
Qed.

Lemma set_pos_last (t : Trail) (p : vec) :
  exists l, set_pos t p = Some (mkTrail (l ++ [p])).
Proof.
  destruct (insert_pos_last t p) as (l & E).
  destruct (remove_old_last l p) as (l' & E').
  exists l'. unfold set_pos. rewrite E. simpl. now rewrite E'.
Qed.

(** Whatever the trail holds, and be it more than 100 points, [set_pos]
    raises no IndexError, and the position it is given is the last of the
    points stored afterwards: the trail ends where the body is. *)
Theorem set_pos_ends_at_pos (t : Trail) (p : vec) :
  exists l, set_pos t p = Some (mkTrail (l ++ [p])).
Proof.
  exact (set_pos_last t p).
Qed.

(** A trail of at most 100 points never loses in length: a [set_pos]
    leaves as many points as there were or one more, and never more than
    100; so a trail that has reached 100 points keeps 100 points. *)
Theorem set_pos_length_steps (t : Trail) (p : vec) :
  (length (points t) <= 100)%nat ->
  exists t', set_pos t p = Some t' /\
    (length (points t) <= length (points t') <= S (length (points t)))%nat /\
    (length (points t') <= 100)%nat /\
    (length (points t) = 100%nat -> length (points t') = 100%nat).
Proof.
  intros Hl. unfold set_pos.
  destruct (insert_pos_cases t p)
    as [[Hs E] | [(l & q & z & Ep & _ & E) | (l & q & z & Ep & _ & E)]];
    rewrite E; simpl; eexists; (split; [reflexivity |]); simpl;
    unfold remove_old; rewrite ?Ep in *;
    match goal with |- context [(100 <? ?n)%nat] =>
      destruct (Nat.ltb_spec 100 n) as [H | H] end;
    rewrite ?length_skipn; rewrite ?length_app in *; simpl in *; lia.
Qed.

(** The hypothesis of [set_pos_length_steps] holds of the empty trail. *)
Lemma set_pos_length_steps_witness :
  (length (points Trail_init) <= 100)%nat /\
  exists t', set_pos Trail_init (0, 0) = Some t' /\
    (length (points Trail_init) <= length (points t')
     <= S (length (points Trail_init)))%nat /\
    (length (points t') <= 100)%nat /\
    (length (points Trail_init) = 100%nat -> length (points t') = 100%nat).
Proof.
  assert (H : (length (points Trail_init) <= 100)%nat) by (simpl; lia).
  split; [exact H |].
  exact (set_pos_length_steps Trail_init (0, 0) H).
Defined.

(** Only the last point of a trail moves: in a trail of fewer than 100
    points, whose points are [l] followed by a last point [z], a [set_pos]
    keeps the points [l] in place and either replaces [z] by the new
    position or keeps [z] too and appends the new position. *)
Theorem set_pos_keeps_earlier_points (l : list vec) (z p : vec) :
  (length (l ++ [z]) < 100)%nat ->
  set_pos (mkTrail (l ++ [z])) p = Some (mkTrail (l ++ [p])) \/
  set_pos (mkTrail (l ++ [z])) p = Some (mkTrail (l ++ [z; p])).
Proof.
  intros Hl. rewrite length_app in Hl. simpl in Hl. unfold set_pos.
  destruct (insert_pos_cases (mkTrail (l ++ [z])) p)
    as [[_ E] | [(l0 & q & z0 & Ep & _ & E) | (l0 & q & z0 & Ep & _ & E)]];
    rewrite E; simpl in *.
  - right. rewrite <- app_assoc. simpl.
    rewrite remove_old_small; [reflexivity |].
    rewrite length_app. simpl. lia.
  - left.
    change (l0 ++ [q; z0]) with (l0 ++ [q] ++ [z0]) in Ep.
    rewrite app_assoc in Ep. apply app_inj_tail in Ep as [-> _].
    rewrite <- app_assoc. simpl.
    rewrite remove_old_small; [reflexivity |].
    rewrite !length_app in *. simpl in *. lia.
  - right.
    change (l0 ++ [q; z0]) with (l0 ++ [q] ++ [z0]) in Ep.
    rewrite app_assoc in Ep. apply app_inj_tail in Ep as [-> ->].
    rewrite <- app_assoc. simpl.
    rewrite remove_old_small; [reflexivity |].
    rewrite !length_app in *. simpl in *. lia.
Qed.

(** The hypothesis of [set_pos_keeps_earlier_points] holds of the trail of
    the two points (0,0) and (1,0). *)
Lemma set_pos_keeps_earlier_points_witness :
  Nat.lt (length ([(0, 0)] ++ [(1, 0)])) 100 /\
  (set_pos (mkTrail ([(0, 0)] ++ [(1, 0)])) (2, 0)
   = Some (mkTrail ([(0, 0)] ++ [(2, 0)])) \/
   set_pos (mkTrail ([(0, 0)] ++ [(1, 0)])) (2, 0)
   = Some (mkTrail ([(0, 0)] ++ [(1, 0); (2, 0)]))).
Proof.
  assert (H : Nat.lt (length ([(0, 0)] ++ [(1, 0)])) 100)
    by (simpl; lia).
  split; [exact H |].
  exact (set_pos_keeps_earlier_points [(0, 0)] (1, 0) (2, 0) H).
Defined.

(** A body that stays within the spacing threshold of where it was first
    recorded has a trail of two points at most: the first position, and
    the latest one. *)
Theorem record_nearby (p0 : vec) (ps : list vec) :
  (forall p, In p ps -> norm (p0 - p)%V < spacing) ->
  record_all Trail_init (p0 :: ps)
  = Some (mkTrail (match ps with
                   | [] => [p0]
                   | _ :: _ => [p0; last ps p0]
                   end)).
Proof.
  induction ps as [| p ps IH] using rev_ind; intros H.
  - apply (set_pos_short [] p0). simpl. lia.
  - change (p0 :: ps ++ [p]) with ((p0 :: ps) ++ [p]).
    rewrite record_all_snoc, IH
      by (intros q Hq; apply H, in_or_app; now left).
    simpl bind. rewrite last_last.
    replace (match ps ++ [p] with [] => [p0] | _ :: _ => [p0; p] end)
      with [p0; p] by (now destruct ps).
    destruct ps as [| q ps].
    + apply (set_pos_short [p0] p). simpl. lia.
    + apply (set_pos_near [] p0); [| simpl; lia].
      apply H, in_or_app. right. now left.
Qed.

(** The hypothesis of [record_nearby] holds of a body first recorded at
    (0,0) and then at (1000,0) and at (2000,0). *)
Lemma record_nearby_witness :
  (forall p, In p [(1000, 0); (2000, 0)] -> norm ((0, 0) - p)%V < spacing) /\
  record_all Trail_init [(0, 0); (1000, 0); (2000, 0)]
  = Some (mkTrail [(0, 0); (2000, 0)]).
Proof.
  assert (H : forall p, In p [(1000, 0); (2000, 0)] ->
                norm ((0, 0) - p)%V < spacing).
  { intros p [<- | [<- | []]]; norm_of_numbers. }
  split; [exact H |].
  exact (record_nearby (0, 0) [(1000, 0); (2000, 0)] H).
Defined.

Lemma strides_prefix (ps : list vec) (p : vec) :
  strides (ps ++ [p]) -> strides ps.
Proof.
  intros H l x y z r ->. apply (H l x y z (r ++ [p])).
  now rewrite <- app_assoc.
Qed.

(** A trail is a queue of the last 100 positions when the body strides:
    if every position recorded is at least the spacing threshold away from
    the one recorded two calls before, every call appends, and the trail
    holds the positions recorded, without the oldest ones beyond 100. *)
Theorem record_strides (ps : list vec) :
  strides ps ->
  record_all Trail_init ps = Some (mkTrail (skipn (length ps - 100) ps)).
Proof.
  induction ps as [| p ps IH] using rev_ind; intros H; [reflexivity |].
  rewrite record_all_snoc, IH by (eapply strides_prefix; eauto).
  simpl bind. unfold set_pos.
  destruct (Nat.lt_ge_cases (length ps) 2) as [Hn | Hn].
  - replace (length ps - 100)%nat with 0%nat by lia. simpl skipn.
    rewrite insert_pos_short by exact Hn. simpl.
    rewrite remove_old_small by (rewrite length_app; simpl; lia).
    rewrite length_app. simpl.
    replace (length ps + 1 - 100)%nat with 0%nat by lia. reflexivity.
  - destruct (two_from_end ps Hn) as (l & q & z & ->).
    rewrite !length_app in *. simpl in *.
    assert (Hf : ~ norm (q - p)%V < spacing).
    { apply (H l q z p []). now rewrite <- app_assoc. }
    rewrite skipn_app.
    replace (length l + 2 - 100 - length l)%nat with 0%nat by lia.
    simpl skipn. rewrite insert_pos_far by exact Hf. simpl.
    rewrite <- app_assoc. simpl.
    rewrite skipn_app.
    replace (length l + 2 + 1 - 100 - length l)%nat with 0%nat by lia.
    simpl skipn. do 2 f_equal. unfold remove_old.
    match goal with |- context [(100 <? ?n)%nat] =>
      destruct (Nat.ltb_spec 100 n) as [Hc | Hc] end;
      rewrite length_app, length_skipn in Hc; simpl in Hc.
    + rewrite skipn_app, skipn_skipn, length_skipn.
      replace (1 - (length l - (length l + 2 - 100)))%nat with 0%nat by lia.
      rewrite skipn_O. do 2 f_equal. lia.
    + do 2 f_equal. lia.
Qed.

(** The hypothesis of [record_strides] holds of the positions (0,0),
    (10000000,0) and (20000000,0). *)
Lemma record_strides_witness :
  strides [(0, 0); (10000000, 0); (20000000, 0)] /\
  record_all Trail_init [(0, 0); (10000000, 0); (20000000, 0)]
  = Some (mkTrail [(0, 0); (10000000, 0); (20000000, 0)]).
Proof.
  assert (H : strides [(0, 0); (10000000, 0); (20000000, 0)]).
  { intros l x y z r E.
    destruct l as [| a [| b [| c l]]]; simpl in E;
      injection E; intros; subst; try discriminate.
    - norm_of_numbers.
    - destruct l; discriminate. }
  split; [exact H |].
  exact (record_strides [(0, 0); (10000000, 0); (20000000, 0)] H).
Defined.

(** ** More on the force solver *)

Lemma pair_force_ext (obj1 obj2 obj1' obj2' : Body) :
  pos obj1 = pos obj1' -> mass obj1 = mass obj1' ->
  pos obj2 = pos obj2' -> mass obj2 = mass obj2' ->
  pair_force obj1 obj2 = pair_force obj1' obj2'.
Proof.
  intros E1 M1 E2 M2. unfold pair_force. now rewrite E1, M1, E2, M2.
Qed.

Lemma nth_error_same_map {B : Type} (f : Body -> B) (l l' : list Body) k :
  map f l = map f l' ->
  option_map f (nth_error l k) = option_map f (nth_error l' k).
Proof.
  intros E. rewrite <- !nth_error_map. now rewrite E.
Qed.

Lemma pair_at_same (objects objects' : list Body) :
  map pos objects = map pos objects' ->
  map mass objects = map mass objects' ->
  forall i j, pair_at objects i j = pair_at objects' i j.
Proof.
  intros Ep Em i j. unfold pair_at.
  assert (Hpi := nth_error_same_map pos _ _ (Z.to_nat i) Ep).
  assert (Hmi := nth_error_same_map mass _ _ (Z.to_nat i) Em).
  assert (Hpj := nth_error_same_map pos _ _ (Z.to_nat j) Ep).
  assert (Hmj := nth_error_same_map mass _ _ (Z.to_nat j) Em).
  destruct (nth_error objects (Z.to_nat i)),
    (nth_error objects' (Z.to_nat i)); simpl in *; try discriminate;
    [| reflexivity].
  destruct (nth_error objects (Z.to_nat j)),
    (nth_error objects' (Z.to_nat j)); simpl in *; try discriminate;
    [| reflexivity].
  apply pair_force_ext; congruence.
Qed.

Lemma accumulated_ext (objects objects' : list Body) :
  length objects = length objects' ->
  (forall i j, pair_at objects i j = pair_at objects' i j) ->
  forall k, accumulated objects k = accumulated objects' k.
Proof.
  intros El Hp k. unfold accumulated. rewrite El.
  apply vsum_map_ext. intros i1 _. apply vsum_map_ext. intros i2 _.
  unfold contribution. now rewrite Hp.
Qed.

Lemma calculate_forces_same_pairs (objects objects' : list Body) :
  length objects = length objects' ->
  (forall i j, pair_at objects i j = pair_at objects' i j) ->
  exists objs objs',
    calculate_forces objects = Some objs /\
    calculate_forces objects' = Some objs' /\
    map force objs = map force objs'.
Proof.
  intros El Hp.
  destruct (calculate_forces_accumulated objects) as (objs & E & Hl & H).
  destruct (calculate_forces_accumulated objects') as (objs' & E' & Hl' & H').
  exists objs, objs'. split; [exact E |]. split; [exact E' |].
  apply nth_error_ext. intros k. rewrite !nth_error_map.
  destruct (Nat.lt_ge_cases k (length objects)) as [Hk | Hk].
  - destruct (nth_error objects k) as [o |] eqn:Eo;
      [| apply nth_error_None in Eo; lia].
    destruct (nth_error objects' k) as [o' |] eqn:Eo';
      [| apply nth_error_None in Eo'; lia].
    rewrite (H k o Eo), (H' k o' Eo'). simpl.
    now rewrite (accumulated_ext objects objects' El Hp).
  - replace (nth_error objs k) with (@None Body)
      by (symmetry; apply nth_error_None; lia).
    replace (nth_error objs' k) with (@None Body)
      by (symmetry; apply nth_error_None; lia).
    reflexivity.
Qed.

(** The force solver reads the positions and the masses only: two lists
    of bodies with the same positions and the same masses are assigned the
    same forces, whatever their velocities, radii, trails and the forces
    they had. *)
Theorem calculate_forces_reads_pos_and_mass (objects objects' : list Body) :
  map pos objects = map pos objects' ->
  map mass objects = map mass objects' ->
  exists objs objs',
    calculate_forces objects = Some objs /\
    calculate_forces objects' = Some objs' /\
    map force objs = map force objs'.
Proof.
  intros Ep Em. apply calculate_forces_same_pairs.
  - rewrite <- (length_map pos objects), Ep. apply length_map.
  - now apply pair_at_same.
Qed.

(** The hypotheses of [calculate_forces_reads_pos_and_mass] hold of the
    four bodies the program starts with and the same bodies at rest. *)
Lemma calculate_forces_reads_pos_and_mass_witness :
  map pos (objects MainWidget_init)
  = map pos (map (fun b => with_vel b zeros) (objects MainWidget_init)) /\
  map mass (objects MainWidget_init)
  = map mass (map (fun b => with_vel b zeros) (objects MainWidget_init)) /\
  exists objs objs',
    calculate_forces (objects MainWidget_init) = Some objs /\
    calculate_forces
      (map (fun b => with_vel b zeros) (objects MainWidget_init))
    = Some objs' /\
    map force objs = map force objs'.
Proof.
  split; [reflexivity |]. split; [reflexivity |].
  exact (calculate_forces_reads_pos_and_mass (objects MainWidget_init)
           (map (fun b => with_vel b zeros) (objects MainWidget_init))
           eq_refl eq_refl).
Defined.

(** Solving twice is solving once: the force solver overwrites the forces
    and changes nothing it reads, so a second pass over its result
    returns that result. *)
Theorem calculate_forces_idempotent (objects : list Body) :
  exists objs,
    calculate_forces objects = Some objs /\
    calculate_forces objs = Some objs.
Proof.
  destruct (calculate_forces_accumulated objects) as (objs & E & Hl & H).
  destruct (calculate_forces_accumulated objs) as (objs2 & E2 & Hl2 & H2).
  exists objs. split; [exact E |]. rewrite E2. f_equal.
  assert (Ha : forall k, accumulated objs k = accumulated objects k).
  { apply accumulated_ext; [exact Hl |].
    apply pair_at_same; now apply calculate_forces_keeps. }
  apply nth_error_ext. intros k.
  destruct (nth_error objects k) as [o |] eqn:Eo.
  - rewrite (H2 k _ (H k o Eo)), (H k o Eo), Ha. reflexivity.
  - apply nth_error_None in Eo.
    replace (nth_error objs k) with (@None Body)
      by (symmetry; apply nth_error_None; lia).
    apply nth_error_None. lia.
Qed.

Lemma pair_force_translate (v : vec) (obj1 obj2 : Body) :
  pair_force (translate v obj1) (translate v obj2) = pair_force obj1 obj2.
Proof.
  unfold pair_force.
  change (pos (translate v obj2)) with (pos obj2 + v)%V.
  change (pos (translate v obj1)) with (pos obj1 + v)%V.
  change (mass (translate v obj1)) with (mass obj1).
  change (mass (translate v obj2)) with (mass obj2).
  replace (pos obj2 + v - (pos obj1 + v))%V with (pos obj2 - pos obj1)%V
    by vec_ring.
  reflexivity.
Qed.

(** The forces depend on the relative positions only: moving every body
    by the same vector leaves the forces assigned as they were. *)
Theorem calculate_forces_translation (v : vec) (objects : list Body) :
  exists objs objs',
    calculate_forces objects = Some objs /\
    calculate_forces (map (translate v) objects) = Some objs' /\
    map force objs' = map force objs.
Proof.
  destruct (calculate_forces_same_pairs objects (map (translate v) objects))
    as (objs & objs' & E & E' & Hf).
  - now rewrite length_map.
  - intros i j. unfold pair_at. rewrite !nth_error_map.
    destruct (nth_error objects (Z.to_nat i)) as [o1 |]; simpl;
      [| reflexivity].
    destruct (nth_error objects (Z.to_nat j)) as [o2 |]; simpl;
      [| reflexivity].
    symmetry. apply pair_force_translate.
  - exists objs, objs'. auto.
Qed.

Lemma norm_vneg (u : vec) : norm (- u)%V = norm u.
Proof.
  unfold norm, vneg. simpl. f_equal. ring.
Qed.

Lemma norm_pos_distinct (u v : vec) : u <> v -> 0 < norm (v - u)%V.
Proof.
  intros H. apply vsub_nonzero in H. now apply hypot_pos.
Qed.

Lemma norm_gravity (obj1 obj2 : Body) :
  pos obj1 <> pos obj2 -> 0 <= mass obj1 * mass obj2 ->
  norm (gravity obj1 obj2)
  = GRAVITY_CONST * mass obj1 * mass obj2
    / norm (pos obj2 - pos obj1)%V ^ 2.
Proof.
  intros Hp Hm. assert (Hd := norm_pos_distinct _ _ Hp).
  unfold gravity.
  set (d := norm (pos obj2 - pos obj1)%V) in *.
  assert (HG : 0 < GRAVITY_CONST) by (unfold GRAVITY_CONST; lra).
  assert (Hmag : 0 <= GRAVITY_CONST * mass obj1 * mass obj2 / d ^ 2).
  { apply Rmult_le_pos; [nra |]. left. apply Rinv_0_lt_compat. nra. }
  rewrite norm_vscale by exact Hmag.
  replace (vdiv (pos obj2 - pos obj1)%V d)
    with (vscale (pos obj2 - pos obj1)%V (/ d))
    by (apply vec_eq; reflexivity).
  rewrite norm_vscale by (left; now apply Rinv_0_lt_compat).
  fold d. field. lra.
Qed.

(** Gravity attracts, with Newton's magnitude: for two bodies of positive
    mass at distinct positions, the force assigned to each is a positive
    multiple of the vector from it to the other body, and its norm is
    [G * m1 * m2 / d ^ 2], [d] being their distance. *)
Theorem two_bodies_attract (obj1 obj2 : Body) :
  pos obj1 <> pos obj2 -> 0 < mass obj1 -> 0 < mass obj2 ->
  exists obj1' obj2' k,
    calculate_forces [obj1; obj2] = Some [obj1'; obj2'] /\
    0 < k /\
    force obj1' = vscale (pos obj2 - pos obj1)%V k /\
    force obj2' = vscale (pos obj1 - pos obj2)%V k /\
    norm (force obj1')
    = GRAVITY_CONST * mass obj1 * mass obj2
      / norm (pos obj2 - pos obj1)%V ^ 2 /\
    norm (force obj2') = norm (force obj1').
Proof.
  intros Hp Hm1 Hm2. assert (Hd := norm_pos_distinct _ _ Hp).
  assert (HG : 0 < GRAVITY_CONST) by (unfold GRAVITY_CONST; lra).
  destruct (calculate_forces_accumulated [obj1; obj2])
    as (objs & E & Hl & H).
  destruct (accumulated_two obj1 obj2) as [E1 E2].
  assert (H1 := H 0%nat obj1 eq_refl). assert (H2 := H 1%nat obj2 eq_refl).
  simpl Z.of_nat in H1, H2. rewrite E1 in H1. rewrite E2 in H2.
  rewrite pair_force_gravity in H1, H2 by exact Hp.
  destruct objs as [| obj1' [| obj2' [| ? ?]]]; try discriminate.
  simpl in H1, H2. injection H1 as ->. injection H2 as ->.
  set (d := norm (pos obj2 - pos obj1)%V) in *.
  exists (set_force obj1 (gravity obj1 obj2)),
    (set_force obj2 (- gravity obj1 obj2)%V),
    (GRAVITY_CONST * mass obj1 * mass obj2 / d ^ 2 / d).
  split; [exact E |]. simpl force.
  split; [| split; [| split; [| split]]].
  - apply Rmult_lt_0_compat; [| now apply Rinv_0_lt_compat].
    apply Rmult_lt_0_compat; [| apply Rinv_0_lt_compat; nra].
    apply Rmult_lt_0_compat; [nra | exact Hm2].
  - unfold gravity. fold d. apply vec_eq; vec_unfold; field; lra.
  - unfold gravity. fold d. apply vec_eq; vec_unfold; field; lra.
  - apply norm_gravity; [exact Hp | nra].
  - apply norm_vneg.
Qed.

(** The hypotheses of [two_bodies_attract] hold of the Sun and the Earth as
    the program places them. *)
Lemma two_bodies_attract_witness :
  (0, 0) <> (DIST_EARTH, 0) /\ 0 < MASS_SUN /\ 0 < MASS_EARTH /\
  exists obj1' obj2' k,
    calculate_forces
      [Body_init (0, 0) (0, 0) MASS_SUN (RAD_SUN * 20);
       Body_init (DIST_EARTH, 0) (0, SPEED_EARTH) MASS_EARTH
         (RAD_EARTH * 1000)]
    = Some [obj1'; obj2'] /\
    0 < k /\
    force obj1' = vscale ((DIST_EARTH, 0) - (0, 0))%V k /\
    force obj2' = vscale ((0, 0) - (DIST_EARTH, 0))%V k /\
    norm (force obj1')
    = GRAVITY_CONST * MASS_SUN * MASS_EARTH
      / norm ((DIST_EARTH, 0) - (0, 0))%V ^ 2 /\
    norm (force obj2') = norm (force obj1').
Proof.
  assert (Hp : (0, 0) <> (DIST_EARTH, 0))
    by (unfold DIST_EARTH; intros E; injection E; intros; lra).
  assert (H1 : 0 < MASS_SUN) by (unfold MASS_SUN, MASS_EARTH; lra).
  assert (H2 : 0 < MASS_EARTH) by (unfold MASS_EARTH; lra).
  split; [exact Hp |]. split; [exact H1 |]. split; [exact H2 |].
  exact (two_bodies_attract
           (Body_init (0, 0) (0, 0) MASS_SUN (RAD_SUN * 20))
           (Body_init (DIST_EARTH, 0) (0, SPEED_EARTH) MASS_EARTH
              (RAD_EARTH * 1000)) Hp H1 H2).
Defined.

(** ** More on the simulation step *)

(** The centre of mass moves with the momentum: one simulation step adds
    [dt] times the total momentum the bodies had before the step to the
    sum of [mass * position]. *)
Theorem mass_moment_step (dt : R) (w : MainWidget) :
  exists w', simulation_step dt w = Some w' /\
    mass_moment (objects w')
    = (mass_moment (objects w) + vscale (momentum (objects w)) dt)%V.
Proof.
  destruct (simulation_step_returns dt w) as (objs & Ec & Es).
  eexists. split; [exact Es |]. simpl.
  unfold mass_moment, momentum. rewrite map_map.
  rewrite (vsum_map_ext _
             (fun obj => vscale (pos obj) (mass obj)
                         + vscale (vscale (vel obj) (mass obj)) dt)%V)
    by (intros obj _; apply vec_eq; vec_unfold; ring).
  rewrite (vsum_map_add (fun obj => vscale (pos obj) (mass obj))
             (fun obj => vscale (vscale (vel obj) (mass obj)) dt)).
  rewrite (vsum_map_vscale (fun obj => vscale (vel obj) (mass obj))).
  rewrite (calculate_forces_keeps (fun obj => vscale (pos obj) (mass obj))
             _ _ ltac:(reflexivity) Ec).
  rewrite (calculate_forces_keeps (fun obj => vscale (vel obj) (mass obj))
             _ _ ltac:(reflexivity) Ec).
  reflexivity.
Qed.

(** A body alone moves uniformly: with a single body, of a mass that is
    not zero, [n] steps return, leave its velocity as it was and move it
    by [n * dt] times that velocity; the time advances by [n * dt]. *)
Theorem lone_body_moves_uniformly (b : Body) (t dt : R) (n : nat) :
  mass b <> 0 ->
  exists w' b',
    advance n dt (mkMainWidget t [b]) = Some w' /\
    time w' = t + INR n * dt /\
    objects w' = [b'] /\
    pos b' = (pos b + vscale (vel b) (INR n * dt))%V /\
    vel b' = vel b /\
    mass b' = mass b /\ radius b' = radius b /\ trail b' = trail b.
Proof.
  intros Hm. induction n as [| n (w1 & b1 & E1 & Ht & Ho & Hp & Hv & Hk)].
  - exists (mkMainWidget t [b]), b. split; [reflexivity |].
    split; [simpl; ring |]. split; [reflexivity |].
    split; [apply vec_eq; vec_unfold; ring | auto].
  - rewrite advance_snoc, E1, !S_INR. simpl bind. unfold simulation_step.
    rewrite calculate_forces_few by (rewrite Ho; simpl; lia).
    rewrite Ho. simpl.
    eexists. eexists. split; [reflexivity |]. simpl.
    split; [rewrite Ht; ring |].
    split; [reflexivity |].
    split.
    + unfold update_state, set_force, with_force, with_vel, with_pos. simpl.
      rewrite Hp, Hv.
      apply vec_eq; vec_unfold; ring.
    + split; [| exact Hk]. rewrite <- Hv.
      unfold update_state, set_force, with_force, with_vel, with_pos. simpl.
      apply vec_eq; vec_unfold; unfold Rdiv; ring.
Qed.

(** The hypothesis of [lone_body_moves_uniformly] holds of Mercury, left
    alone for 100 steps of 100 seconds. *)
Lemma lone_body_moves_uniformly_witness :
  MASS_MERCURY <> 0 /\
  exists w' b',
    advance 100 DELTA_T
      (mkMainWidget 0
         [Body_init (DIST_MERCURY, 0) (0, SPEED_MERCURY) MASS_MERCURY
            (RAD_MERCURY * 1000)]) = Some w' /\
    time w' = 0 + INR 100 * DELTA_T /\
    objects w' = [b'] /\
    pos b' = ((DIST_MERCURY, 0)
              + vscale (0, SPEED_MERCURY) (INR 100 * DELTA_T))%V /\
    vel b' = (0, SPEED_MERCURY) /\
    mass b' = MASS_MERCURY /\ radius b' = RAD_MERCURY * 1000 /\
    trail b' = Trail_init.
Proof.
  assert (H : MASS_MERCURY <> 0) by (unfold MASS_MERCURY, MASS_EARTH; lra).
  split; [exact H |].
  exact (lone_body_moves_uniformly
           (Body_init (DIST_MERCURY, 0) (0, SPEED_MERCURY) MASS_MERCURY
              (RAD_MERCURY * 1000)) 0 DELTA_T 100 H).
Defined.

(** ** The frame *)

Lemma simulation_step_keeps {B : Type} (proj : Body -> B) (dt : R)
    (w w' : MainWidget) :
  (forall obj f, proj (set_force obj f) = proj obj) ->
  (forall obj, proj (update_state obj dt) = proj obj) ->
  simulation_step dt w = Some w' ->
  map proj (objects w') = map proj (objects w).
Proof.
  intros Hf Hu E. unfold simulation_step in E.
  destruct (calculate_forces (objects w)) as [objs |] eqn:Ec;
    simpl in E; [| discriminate].
  injection E as <-. simpl. rewrite map_map.
  rewrite <- (calculate_forces_keeps proj _ _ Hf Ec).
  apply map_ext. exact Hu.
Qed.

Lemma advance_keeps {B : Type} (proj : Body -> B) (dt : R) (n : nat)
    (w w' : MainWidget) :
  (forall obj f, proj (set_force obj f) = proj obj) ->
  (forall obj, proj (update_state obj dt) = proj obj) ->
  advance n dt w = Some w' ->
  map proj (objects w') = map proj (objects w).
Proof.
  intros Hf Hu. revert w'. induction n as [| n IH]; intros w' E.
  - injection E as <-. reflexivity.
  - rewrite advance_snoc in E.
    destruct (advance n dt w) as [w1 |]; simpl in E; [| discriminate].
    rewrite (simulation_step_keeps proj dt w1 w' Hf Hu E). now apply IH.
Qed.

Lemma update_all_graphics_nth (objs objs' : list Body) :
  update_all_graphics objs = Some objs' ->
  length objs' = length objs /\
  forall k b, nth_error objs k = Some b ->
    exists t', set_pos (trail b) (pos b) = Some t' /\
      nth_error objs' k = Some (with_trail b t').
Proof.
  revert objs'. induction objs as [| obj objs IH]; intros objs' E;
    simpl in E.
  - injection E as <-. split; [reflexivity |]. intros [| k] b; discriminate.
  - unfold update_graphics in E.
    destruct (set_pos (trail obj) (pos obj)) as [t |] eqn:Et;
      simpl in E; [| discriminate].
    destruct (update_all_graphics objs) as [rest |]; simpl in E;
      [| discriminate].
    injection E as <-. destruct (IH rest eq_refl) as [Hl Hn].
    split; [simpl; now rewrite Hl |].
    intros [| k] b Hb; simpl in *.
    + injection Hb as <-. eauto.
    + now apply Hn.
Qed.

(** One position a frame: while [on_update] runs its 100 steps the trails
    are left alone, and then every body records the position it has
    reached, once; the positions it went through on the way are not
    recorded. *)
Theorem on_update_records_once (w : MainWidget) (frame_dt : R) :
  exists w1 w',
    advance STEPS_PER_RENDER DELTA_T w = Some w1 /\
    on_update w frame_dt = Some w' /\
    length (objects w') = length (objects w) /\
    forall k b0, nth_error (objects w) k = Some b0 ->
      exists b1 t',
        nth_error (objects w1) k = Some b1 /\
        trail b1 = trail b0 /\
        set_pos (trail b0) (pos b1) = Some t' /\
        nth_error (objects w') k = Some (with_trail b1 t').
Proof.
  destruct (advance_returns STEPS_PER_RENDER DELTA_T w) as (w1 & E1 & _).
  destruct (update_all_graphics_returns (objects w1)) as (objs' & Eg).
  destruct (update_all_graphics_nth _ _ Eg) as [Hl Hn].
  assert (Ht := advance_keeps trail _ _ _ _
                  ltac:(reflexivity) ltac:(reflexivity) E1).
  assert (Hl1 : length (objects w1) = length (objects w)).
  { rewrite <- (length_map trail (objects w1)), Ht. apply length_map. }
  exists w1, (mkMainWidget (time w1) objs').
  split; [exact E1 |]. unfold on_update. rewrite E1. simpl bind.
  rewrite Eg. simpl. split; [reflexivity |]. split; [lia |].
  intros k b0 Hb0.
  destruct (nth_error (objects w1) k) as [b1 |] eqn:Eb1;
    [| apply nth_error_None in Eb1;
       assert (k < length (objects w))%nat
         by (apply nth_error_Some; congruence); lia].
  assert (Etr : trail b1 = trail b0).
  { assert (Hk := f_equal (fun l => nth_error l k) Ht). simpl in Hk.
    rewrite !nth_error_map, Eb1, Hb0 in Hk. simpl in Hk. congruence. }
  destruct (Hn k b1 Eb1) as (t' & Es & En).
  exists b1, t'. rewrite <- Etr. auto.
Qed.

(** [on_update] keeps the bodies: it returns, with as many bodies as
    there were, of the same masses and radii, and the trail of each body
    ends at the position the body has afterwards. *)
Theorem on_update_keeps_bodies (w : MainWidget) (frame_dt : R) :
  exists w',
    on_update w frame_dt = Some w' /\
    length (objects w') = length (objects w) /\
    map mass (objects w') = map mass (objects w) /\
    map radius (objects w') = map radius (objects w) /\
    Forall (fun b => exists l, points (trail b) = l ++ [pos b]) (objects w').
Proof.
  destruct (advance_returns STEPS_PER_RENDER DELTA_T w) as (w1 & E1 & _).
  destruct (update_all_graphics_returns (objects w1)) as (objs' & Eg).
  destruct (update_all_graphics_nth _ _ Eg) as [Hl Hn].
  assert (Hm := advance_keeps mass _ _ _ _
                  ltac:(reflexivity) ltac:(reflexivity) E1).
  assert (Hr := advance_keeps radius _ _ _ _
                  ltac:(reflexivity) ltac:(reflexivity) E1).
  assert (Hproj : forall (B : Type) (proj : Body -> B),
            (forall b t, proj (with_trail b t) = proj b) ->
            map proj objs' = map proj (objects w1)).
  { intros B proj Hp. apply nth_error_ext. intros k.
    rewrite !nth_error_map.
    destruct (nth_error (objects w1) k) as [b1 |] eqn:Eb1.
    - destruct (Hn k b1 Eb1) as (t' & _ & ->). simpl. now rewrite Hp.
    - apply nth_error_None in Eb1.
      replace (nth_error objs' k) with (@None Body); [reflexivity |].
      symmetry. apply nth_error_None. lia. }
  exists (mkMainWidget (time w1) objs').
  unfold on_update. rewrite E1. simpl bind. rewrite Eg. simpl.
  split; [reflexivity |].
  split; [rewrite Hl, <- (length_map mass (objects w1)), Hm;
          apply length_map |].
  split; [rewrite <- Hm; now apply Hproj |].
  split; [rewrite <- Hr; now apply Hproj |].
  apply Forall_forall. intros b' Hb'.
  apply In_nth_error in Hb' as (k & Hk).
  destruct (nth_error (objects w1) k) as [b1 |] eqn:Eb1;
    [| apply nth_error_None in Eb1;
       assert (k < length objs')%nat by (apply nth_error_Some; congruence);
       lia].
  destruct (Hn k b1 Eb1) as (t' & Es & En).
  rewrite En in Hk. injection Hk as <-. simpl.
  destruct (set_pos_last (trail b1) (pos b1)) as (l & El).
  rewrite El in Es. injection Es as <-. now exists l.
Qed.

(** What [update_graphics] draws holds together: it returns, the body
    keeps its position, the circle is centred on the image of that
    position, and the line of the trail ends at the centre of the
    circle. *)
Theorem draw_body_line_ends_at_circle (win : Window) (self : Body) :
  exists self' circle line coords,
    draw_body win self = Some (self', circle, line) /\
    pos self' = pos self /\
    ellipse_center circle = pos_to_screen win (pos self) /\
    line = coords ++ [fst (ellipse_center circle);
                      snd (ellipse_center circle)].
Proof.
  destruct (set_pos_last (trail self) (pos self)) as (l & El).
  assert (Ec : ellipse_center (update_circle win self)
               = pos_to_screen win (pos self))
    by apply update_circle_centered_center.
  exists (with_trail self (mkTrail (l ++ [pos self]))),
    (update_circle win self),
    (Trail_update_graphics win (mkTrail (l ++ [pos self]))),
    (flat_map (fun p => tolist (pos_to_screen win p)) l).
  unfold draw_body, update_graphics. rewrite El. simpl bind.
  split; [reflexivity |]. split; [reflexivity |]. split; [exact Ec |].
  unfold Trail_update_graphics. rewrite fold_left_screen_points.
  cbn [points]. rewrite flat_map_app, Ec. reflexivity.
Qed.

(** Batches compose: a batch of [m + n] steps is a batch of [m] steps
    followed by a batch of [n] steps, so the physics of the program does
    not depend on how many steps a frame runs. *)
Theorem advance_add (m n : nat) (dt : R) (w : MainWidget) :
  advance (m + n) dt w = w1 <- advance m dt w ;; advance n dt w1.
Proof.
  revert w. induction m as [| m IH]; intros w.
  - reflexivity.
  - change (S m + n)%nat with (S (m + n)). rewrite !advance_S.
    destruct (simulation_step dt w) as [w1 |]; simpl; [apply IH | reflexivity].
Qed.

(** * The program where its quotients are real numbers *)

(** ** The two embeddings *)

Lemma quotient_nonzero (x y : R) : y <> 0 -> quotient x y = Some (x / y).
Proof.
  intros H. unfold quotient. now destruct (Req_dec_T y 0).
Qed.

Lemma quotient_zero (x y : R) : y = 0 -> quotient x y = None.
Proof.
  intros H. unfold quotient. now destruct (Req_dec_T y 0).
Qed.

Lemma quotient_value (x y q : R) : quotient x y = Some q -> y <> 0 /\ q = x / y.
Proof.
  unfold quotient. destruct (Req_dec_T y 0); [discriminate |].
  intros [= <-]. auto.
Qed.

Lemma norm_same (u : vec) : norm (u - u)%V = 0.
Proof.
  unfold norm, vsub. simpl.
  replace ((fst u - fst u) * (fst u - fst u)
           + (snd u - snd u) * (snd u - snd u)) with 0 by ring.
  apply sqrt_0.
Qed.

Lemma pair_force_real_distinct (obj1 obj2 : Body) :
  pos obj1 <> pos obj2 ->
  pair_force_real obj1 obj2 = Some (pair_force obj1 obj2).
Proof.
  intros H. assert (Hd := norm_pos_distinct _ _ H).
  unfold pair_force_real. rewrite quotient_nonzero by nra. reflexivity.
Qed.

Lemma pair_force_real_coincident (obj1 obj2 : Body) :
  pos obj1 = pos obj2 -> pair_force_real obj1 obj2 = None.
Proof.
  intros H. unfold pair_force_real.
  rewrite quotient_zero; [reflexivity |].
  rewrite H, norm_same. ring.
Qed.

Lemma pair_force_real_value (obj1 obj2 : Body) (f : vec) :
  pair_force_real obj1 obj2 = Some f -> f = pair_force obj1 obj2.
Proof.
  unfold pair_force_real.
  destruct (quotient _ _) as [q |] eqn:E; simpl; [| discriminate].
  apply quotient_value in E as [_ ->]. now intros [= <-].
Qed.

Lemma accumulate_pair_real_value (objects : list Body) (i1 i2 : Z)
    (forces forces' : list vec) :
  accumulate_pair_real objects i1 i2 forces = Some forces' ->
  accumulate_pair objects i1 i2 forces = Some forces'.
Proof.
  unfold accumulate_pair_real, accumulate_pair.
  destruct (getitem objects i1) as [obj1 |]; simpl; [| discriminate].
  destruct (getitem objects i2) as [obj2 |]; simpl; [| discriminate].
  destruct (pair_force_real obj1 obj2) as [f |] eqn:E; simpl;
    [| discriminate].
  now rewrite (pair_force_real_value _ _ _ E).
Qed.

Lemma for_each_refines {A S : Type} (body' body : A -> S -> option S)
    (xs : list A) (s s' : S) :
  (forall x s s', body' x s = Some s' -> body x s = Some s') ->
  for_each xs body' s = Some s' -> for_each xs body s = Some s'.
Proof.
  intros H. revert s. induction xs as [| x xs IH]; intros s E; simpl in *;
    [exact E |].
  destruct (body' x s) as [s1 |] eqn:E1; simpl in E; [| discriminate].
  rewrite (H _ _ _ E1). simpl. now apply IH.
Qed.

Lemma for_each_agrees {A S : Type} (body' body : A -> S -> option S)
    (xs : list A) (s : S) :
  (forall x s, In x xs -> body' x s = body x s) ->
  for_each xs body' s = for_each xs body s.
Proof.
  revert s. induction xs as [| x xs IH]; intros s H; simpl; [reflexivity |].
  rewrite H by now left.
  destruct (body x s); simpl; [| reflexivity].
  apply IH. intros; apply H; now right.
Qed.

Lemma calculate_forces_real_value (objects objs : list Body) :
  calculate_forces_real objects = Some objs ->
  calculate_forces objects = Some objs.
Proof.
  unfold calculate_forces_real, calculate_forces.
  destruct (for_each (range 0 (Z.of_nat (length objects) - 1))
              (fun i1 forces =>
                 for_each (range (i1 + 1) (Z.of_nat (length objects)))
                   (accumulate_pair_real objects i1) forces)
              (map (fun _ => zeros) objects)) as [forces |] eqn:E;
    simpl; [| discriminate].
  intros Ea.
  erewrite for_each_refines; [simpl; exact Ea | | exact E].
  intros i1 s s' Ei. simpl in Ei.
  eapply for_each_refines; [| exact Ei].
  intros i2 s1 s2. apply accumulate_pair_real_value.
Qed.

Lemma distinct_positions_nth (bodies : list Body) (i j : nat) (bi bj : Body) :
  distinct_positions bodies ->
  nth_error bodies i = Some bi -> nth_error bodies j = Some bj ->
  i <> j -> pos bi <> pos bj.
Proof.
  intros Hd Hi Hj Hne E. apply Hne.
  assert (Hlt : (i < length (map pos bodies))%nat).
  { rewrite length_map. apply nth_error_Some. congruence. }
  apply (proj1 (NoDup_nth_error (map pos bodies)) Hd i j Hlt).
  rewrite !nth_error_map, Hi, Hj. simpl. now f_equal.
Qed.

Lemma accumulate_pair_real_distinct (objects : list Body) (i1 i2 : Z)
    (forces : list vec) :
  distinct_positions objects ->
  (0 <= i1 < i2)%Z -> (i2 < Z.of_nat (length objects))%Z ->
  accumulate_pair_real objects i1 i2 forces
  = accumulate_pair objects i1 i2 forces.
Proof.
  intros Hd H1 H2. unfold accumulate_pair_real, accumulate_pair.
  destruct (objects_getitem objects i1) as (obj1 & -> & E1); [lia |].
  destruct (objects_getitem objects i2) as (obj2 & -> & E2); [lia |].
  simpl. rewrite pair_force_real_distinct; [reflexivity |].
  apply (distinct_positions_nth objects _ _ _ _ Hd E1 E2). lia.
Qed.

(** Where the positions are pairwise distinct the two embeddings of the
    force solver are the same function. *)
Lemma calculate_forces_real_distinct (objects : list Body) :
  distinct_positions objects ->
  calculate_forces_real objects = calculate_forces objects.
Proof.
  intros Hd. unfold calculate_forces_real, calculate_forces.
  rewrite (for_each_agrees
             (fun i1 forces =>
                for_each (range (i1 + 1) (Z.of_nat (length objects)))
                  (accumulate_pair_real objects i1) forces)
             (fun i1 forces =>
                for_each (range (i1 + 1) (Z.of_nat (length objects)))
                  (accumulate_pair objects i1) forces));
    [reflexivity |].
  intros i1 s Hi1. apply in_range in Hi1.
  apply for_each_agrees. intros i2 s' Hi2. apply in_range in Hi2.
  apply accumulate_pair_real_distinct; [exact Hd | lia | lia].
Qed.

Lemma update_state_real_nonzero (self : Body) (dt : R) :
  mass self <> 0 -> update_state_real self dt = Some (update_state self dt).
Proof.
  intros H. unfold update_state_real.
  rewrite !quotient_nonzero by exact H. reflexivity.
Qed.

Lemma update_state_real_zero (self : Body) (dt : R) :
  mass self = 0 -> update_state_real self dt = None.
Proof.
  intros H. unfold update_state_real. now rewrite quotient_zero.
Qed.

Lemma update_state_real_value (self self' : Body) (dt : R) :
  update_state_real self dt = Some self' ->
  mass self <> 0 /\ self' = update_state self dt.
Proof.
  intros E. destruct (Req_dec_T (mass self) 0) as [H | H].
  - rewrite update_state_real_zero in E by exact H. discriminate.
  - rewrite update_state_real_nonzero in E by exact H.
    injection E as <-. auto.
Qed.

Lemma update_all_states_real_nonzero (objs : list Body) (dt : R) :
  nonzero_masses objs ->
  update_all_states_real objs dt
  = Some (map (fun obj => update_state obj dt) objs).
Proof.
  induction 1 as [| obj objs Hm _ IH]; simpl; [reflexivity |].
  rewrite update_state_real_nonzero by exact Hm. simpl.
  now rewrite IH.
Qed.

Lemma update_all_states_real_value (objs objs' : list Body) (dt : R) :
  update_all_states_real objs dt = Some objs' ->
  nonzero_masses objs /\ objs' = map (fun obj => update_state obj dt) objs.
Proof.
  revert objs'. induction objs as [| obj objs IH]; intros objs' E;
    simpl in E.
  - injection E as <-. split; [constructor | reflexivity].
  - destruct (update_state_real obj dt) as [obj' |] eqn:Eo;
      simpl in E; [| discriminate].
    destruct (update_all_states_real objs dt) as [rest |];
      simpl in E; [| discriminate].
    injection E as <-.
    apply update_state_real_value in Eo as [Hm ->].
    destruct (IH rest eq_refl) as [Hr ->].
    split; [now constructor | reflexivity].
Qed.

Lemma nonzero_masses_same (objs objs' : list Body) :
  map mass objs' = map mass objs ->
  nonzero_masses objs -> nonzero_masses objs'.
Proof.
  unfold nonzero_masses. intros E H.
  apply (proj1 (Forall_map mass (fun m => m <> 0) objs')). rewrite E.
  apply (proj2 (Forall_map mass (fun m => m <> 0) objs)). exact H.
Qed.

Lemma simulation_step_real_value (dt : R) (w w' : MainWidget) :
  simulation_step_real dt w = Some w' ->
  simulation_step dt w = Some w' /\ nonzero_masses (objects w).
Proof.
  unfold simulation_step_real, simulation_step.
  destruct (calculate_forces_real (objects w)) as [objs |] eqn:Ec;
    simpl; [| discriminate].
  destruct (update_all_states_real objs dt) as [objs' |] eqn:Eu;
    simpl; [| discriminate].
  intros [= <-].
  apply calculate_forces_real_value in Ec.
  apply update_all_states_real_value in Eu as [Hm ->].
  rewrite Ec. simpl. split; [reflexivity |].
  apply (nonzero_masses_same objs); [| exact Hm].
  symmetry. now apply calculate_forces_keeps.
Qed.

(** Where the positions are pairwise distinct and no mass is zero the two
    embeddings of the step are the same function. *)
Lemma simulation_step_real_defined (dt : R) (w : MainWidget) :
  distinct_positions (objects w) -> nonzero_masses (objects w) ->
  simulation_step_real dt w = simulation_step dt w.
Proof.
  intros Hd Hm. unfold simulation_step_real, simulation_step.
  rewrite calculate_forces_real_distinct by exact Hd.
  destruct (calculate_forces (objects w)) as [objs |] eqn:Ec; simpl;
    [| reflexivity].
  rewrite update_all_states_real_nonzero; [reflexivity |].
  apply (nonzero_masses_same (objects w)); [| exact Hm].
  now apply calculate_forces_keeps.
Qed.

Lemma advance_real_S (n : nat) (dt : R) (w : MainWidget) :
  advance_real (S n) dt w
  = w1 <- simulation_step_real dt w ;; advance_real n dt w1.
Proof.
  unfold advance_real. rewrite range_first by lia. simpl for_each.
  destruct (simulation_step_real dt w) as [w1 |]; simpl; [| reflexivity].
  apply for_each_const. rewrite !length_range. lia.
Qed.

Lemma advance_real_snoc (n : nat) (dt : R) (w : MainWidget) :
  advance_real (S n) dt w
  = w1 <- advance_real n dt w ;; simulation_step_real dt w1.
Proof.
  unfold advance_real.
  rewrite (range_split 0 (Z.of_nat n) (Z.of_nat (S n))) by lia.
  rewrite for_each_app.
  destruct (for_each (range 0 (Z.of_nat n)) _ w) as [w1 |]; simpl;
    [| reflexivity].
  rewrite range_first, range_empty by lia. simpl.
  now destruct (simulation_step_real dt w1).
Qed.

Lemma positive_masses_nonzero (objs : list Body) :
  positive_masses objs -> nonzero_masses objs.
Proof.
  unfold positive_masses, nonzero_masses. apply Forall_impl.
  intros b H. lra.
Qed.

(** ** No pairs, and a mass *)

Lemma distinct_positions_few (objects : list Body) :
  (length objects <= 1)%nat -> distinct_positions objects.
Proof.
  intros H. unfold distinct_positions.
  destruct objects as [| obj [| obj' rest]]; simpl in *; try lia.
  - constructor.
  - constructor; [intros [] | constructor].
Qed.

Lemma calculate_forces_real_few (objects : list Body) :
  (length objects <= 1)%nat ->
  calculate_forces_real objects
  = Some (map (fun obj => set_force obj zeros) objects).
Proof.
  intros H.
  rewrite calculate_forces_real_distinct
    by now apply distinct_positions_few.
  now apply calculate_forces_few.
Qed.

(** C9, as the code has it: with no body or one body the loops of the
    force solver have no iteration, so the solver takes no quotient and
    indexes no list, and it returns with the zero vector as the force,
    whatever the mass is; when moreover the mass of the body is not zero,
    the step returns, and afterwards the force of the body is the zero
    vector and its velocity is what it was. *)
Theorem step_of_few_bodies (w : MainWidget) (dt : R) :
  (length (objects w) <= 1)%nat ->
  range 0 (Z.of_nat (length (objects w)) - 1) = [] /\
  calculate_forces_real (objects w)
  = Some (map (fun obj => set_force obj zeros) (objects w)) /\
  (nonzero_masses (objects w) ->
   exists w',
     simulation_step_real dt w = Some w' /\
     advance_real 1 dt w = Some w' /\
     length (objects w') = length (objects w) /\
     Forall (fun obj => force obj = zeros) (objects w') /\
     map vel (objects w') = map vel (objects w)).
Proof.
  intros Hl. split; [apply range_empty; lia |].
  assert (E := calculate_forces_real_few (objects w) Hl).
  split; [exact E |]. intros Hm.
  assert (Hm' : nonzero_masses
                  (map (fun obj => set_force obj zeros) (objects w))).
  { apply (nonzero_masses_same (objects w)); [| exact Hm].
    rewrite map_map. reflexivity. }
  assert (Es : simulation_step_real dt w = Some
    (mkMainWidget (time w + dt)
       (map (fun obj => update_state obj dt)
          (map (fun obj => set_force obj zeros) (objects w))))).
  { unfold simulation_step_real. rewrite E. simpl bind.
    now rewrite update_all_states_real_nonzero by exact Hm'. }
  eexists. split; [exact Es |].
  split; [rewrite advance_real_S, Es; reflexivity |].
  simpl. rewrite !length_map. split; [reflexivity |].
  split; [rewrite !Forall_map; apply Forall_forall; reflexivity |].
  rewrite !map_map. apply map_ext. intros obj.
  change (vel obj) with (vel (set_force obj zeros)).
  now apply update_state_at_rest.
Qed.

Lemma sun_alone_mass : nonzero_masses (objects sun_alone).
Proof.
  repeat constructor. simpl. unfold MASS_SUN, MASS_EARTH. lra.
Defined.

(** The hypotheses of [step_of_few_bodies] hold of the Sun alone. *)
Lemma step_of_few_bodies_witness :
  (length (objects sun_alone) <= 1)%nat /\
  nonzero_masses (objects sun_alone) /\
  calculate_forces_real (objects sun_alone)
  = Some (map (fun obj => set_force obj zeros) (objects sun_alone)) /\
  exists w',
    simulation_step_real DELTA_T sun_alone = Some w' /\
    advance_real 1 DELTA_T sun_alone = Some w' /\
    length (objects w') = length (objects sun_alone) /\
    Forall (fun obj => force obj = zeros) (objects w') /\
    map vel (objects w') = map vel (objects sun_alone).
Proof.
  assert (Hl : (length (objects sun_alone) <= 1)%nat) by (simpl; lia).
  split; [exact Hl |]. split; [exact sun_alone_mass |].
  destruct (step_of_few_bodies sun_alone DELTA_T Hl) as (_ & E & H).
  split; [exact E |]. exact (H sun_alone_mass).
Defined.

(** C9, as the claim states it, fails: for one body of mass 0 and
    velocity (1,0) the force solver returns the zero force, and the
    quotient [force / mass] that [update_state] takes next is 0 / 0, so
    the step has no real velocity to leave unchanged (numpy makes it
    nan). *)
Lemma step_of_few_bodies_counterexample :
  (length (objects massless) <= 1)%nat /\
  calculate_forces_real (objects massless)
  = Some [set_force (Body_init (0, 0) (1, 0) 0 1) zeros] /\
  update_state_real (set_force (Body_init (0, 0) (1, 0) 0 1) zeros) DELTA_T
  = None /\
  simulation_step_real DELTA_T massless = None /\
  advance_real 1 DELTA_T massless = None.
Proof.
  assert (Hl : (length (objects massless) <= 1)%nat) by (simpl; lia).
  assert (Ec := calculate_forces_real_few (objects massless) Hl).
  assert (Eu : update_state_real
                 (set_force (Body_init (0, 0) (1, 0) 0 1) zeros) DELTA_T
               = None) by (now apply update_state_real_zero).
  assert (Es : simulation_step_real DELTA_T massless = None).
  { unfold simulation_step_real. rewrite Ec. simpl bind.
    simpl update_all_states_real. now rewrite Eu. }
  split; [exact Hl |]. split; [exact Ec |]. split; [exact Eu |].
  split; [exact Es |]. now rewrite advance_real_S, Es.
Qed.

(** ** Momentum while the positions are distinct *)

Lemma simulation_step_positions (dt : R) (w w' : MainWidget) :
  simulation_step dt w = Some w' ->
  map pos (objects w')
  = map (fun obj => pos obj + vscale (vel obj) dt)%V (objects w).
Proof.
  intros E. unfold simulation_step in E.
  destruct (calculate_forces (objects w)) as [objs |] eqn:Ec;
    simpl in E; [| discriminate].
  injection E as <-. simpl. rewrite map_map.
  exact (calculate_forces_keeps
           (fun obj => pos obj + vscale (vel obj) dt)%V _ _
           ltac:(reflexivity) Ec).
Qed.

Lemma simulation_step_real_momentum (dt : R) (w : MainWidget) :
  distinct_positions (objects w) -> positive_masses (objects w) ->
  exists w', simulation_step_real dt w = Some w' /\
    momentum (objects w') = momentum (objects w) /\
    positive_masses (objects w').
Proof.
  intros Hd Hm.
  rewrite simulation_step_real_defined
    by (auto using positive_masses_nonzero).
  destruct (simulation_step_returns dt w) as (objs & _ & Es).
  eexists. split; [exact Es |].
  exact (simulation_step_momentum dt w _ Hm Es).
Qed.

(** C4, as the code has it: for bodies with pairwise distinct positions
    and positive masses, one simulation step (a force solve, then the
    integration of every body) returns and leaves the sum of
    [mass * velocity] as it was, in exact real arithmetic; and so does any
    number of steps before each of which the positions are pairwise
    distinct. *)
Theorem momentum_conserved (w : MainWidget) (dt : R) :
  distinct_positions (objects w) ->
  positive_masses (objects w) ->
  (exists w', simulation_step_real dt w = Some w' /\
     momentum (objects w') = momentum (objects w)) /\
  (forall n_steps,
     (forall k wk, (0 < k < n_steps)%nat ->
        advance_real k dt w = Some wk -> distinct_positions (objects wk)) ->
     exists w', advance_real n_steps dt w = Some w' /\
       momentum (objects w') = momentum (objects w)).
Proof.
  intros Hd Hm. split.
  - destruct (simulation_step_real_momentum dt w Hd Hm) as (w' & E & Hp & _).
    eauto.
  - intros n_steps.
    assert (Hn :
      (forall k wk, (0 < k < n_steps)%nat ->
         advance_real k dt w = Some wk -> distinct_positions (objects wk)) ->
      exists w', advance_real n_steps dt w = Some w' /\
        momentum (objects w') = momentum (objects w) /\
        positive_masses (objects w')).
    { induction n_steps as [| n IH]; intros H.
      - exists w. auto.
      - destruct IH as (w1 & E1 & Hp1 & Hm1);
          [intros k wk Hk; apply H; lia |].
        assert (Hd1 : distinct_positions (objects w1)).
        { destruct n as [| n]; [now injection E1 as <- |].
          apply (H (S n) w1); [lia | exact E1]. }
        destruct (simulation_step_real_momentum dt w1 Hd1 Hm1)
          as (w' & E & Hp & Hm').
        exists w'. rewrite advance_real_snoc, E1. simpl bind.
        split; [exact E |]. split; [congruence | exact Hm']. }
    intros H. destruct (Hn H) as (w' & E & Hp & _). eauto.
Qed.

Lemma MainWidget_init_step_distinct (w1 : MainWidget) :
  advance_real 1 DELTA_T MainWidget_init = Some w1 ->
  distinct_positions (objects w1).
Proof.
  intros E. rewrite advance_real_S in E.
  destruct (simulation_step_real DELTA_T MainWidget_init) as [w |] eqn:Es;
    simpl in E; [| discriminate].
  injection E as <-.
  apply simulation_step_real_value in Es as [Es _].
  apply simulation_step_positions in Es.
  unfold distinct_positions. rewrite Es.
  unfold MainWidget_init, DIST_MERCURY, DIST_VENUS, DIST_EARTH, DELTA_T.
  simpl.
  repeat (apply NoDup_cons;
          [simpl; intros Hin;
           repeat (destruct Hin as [Hin | Hin];
                   [injection Hin; intros; lra |]);
           exact Hin |]).
  apply NoDup_nil.
Defined.

(** The hypotheses of [momentum_conserved] hold of the four bodies the
    program starts with, and so does the one on the positions after the
    first step: the momentum is the same after two steps. *)
Lemma momentum_conserved_witness :
  distinct_positions (objects MainWidget_init) /\
  positive_masses (objects MainWidget_init) /\
  (exists w', simulation_step_real DELTA_T MainWidget_init = Some w' /\
     momentum (objects w') = momentum (objects MainWidget_init)) /\
  (exists w', advance_real 2 DELTA_T MainWidget_init = Some w' /\
     momentum (objects w') = momentum (objects MainWidget_init)).
Proof.
  split; [exact MainWidget_init_distinct |].
  split; [exact MainWidget_init_masses |].
  destruct (momentum_conserved MainWidget_init DELTA_T
              MainWidget_init_distinct MainWidget_init_masses) as [H1 Hn].
  split; [exact H1 |].
  apply (Hn 2%nat). intros k wk Hk E.
  assert (k = 1%nat) as -> by lia.
  exact (MainWidget_init_step_distinct wk E).
Defined.

Lemma calculate_forces_real_coincident (obj1 obj2 : Body) :
  pos obj1 = pos obj2 -> calculate_forces_real [obj1; obj2] = None.
Proof.
  intros H. unfold calculate_forces_real. simpl.
  unfold accumulate_pair_real. simpl.
  now rewrite (pair_force_real_coincident obj1 obj2 H).
Qed.

(** C4, as the claim states it, fails: of two bodies of mass 1, one at
    (0,0) with velocity (1,0) and one at rest at (100,0), the positions
    are distinct and the masses positive; one step of 100 seconds brings
    both to (100,0), and the second step divides by their distance 0, so
    that after two steps there is no real momentum to compare (numpy
    makes it nan). *)
Lemma momentum_conserved_counterexample :
  distinct_positions (objects colliding) /\
  positive_masses (objects colliding) /\
  (exists w1, advance_real 1 100 colliding = Some w1 /\
     map pos (objects w1) = [(100, 0); (100, 0)] /\
     simulation_step_real 100 w1 = None) /\
  advance_real 2 100 colliding = None.
Proof.
  assert (Hd : distinct_positions (objects colliding)).
  { unfold distinct_positions, colliding. simpl.
    repeat (apply NoDup_cons;
            [simpl; intros Hin;
             repeat (destruct Hin as [Hin | Hin];
                     [injection Hin; intros; lra |]);
             exact Hin |]).
    apply NoDup_nil. }
  assert (Hm : positive_masses (objects colliding)).
  { unfold positive_masses, colliding. simpl.
    repeat (apply Forall_cons; [simpl; lra |]). apply Forall_nil. }
  destruct (simulation_step_real_momentum 100 colliding Hd Hm)
    as (w1 & E1 & _ & _).
  assert (Hp : map pos (objects w1) = [(100, 0); (100, 0)]).
  { destruct (simulation_step_real_value _ _ _ E1) as [Es _].
    rewrite (simulation_step_positions _ _ _ Es). simpl.
    f_equal; [| f_equal]; apply vec_eq; unfold vadd, vscale; simpl; lra. }
  assert (E2 : simulation_step_real 100 w1 = None).
  { unfold simulation_step_real.
    destruct (objects w1) as [| a [| b [| c rest]]]; try discriminate.
    simpl in Hp. injection Hp as Ha Hb.
    rewrite calculate_forces_real_coincident by congruence.
    reflexivity. }
  split; [exact Hd |]. split; [exact Hm |]. split.
  - exists w1. split; [| auto]. now rewrite advance_real_S, E1.
  - rewrite advance_real_S, E1. simpl bind.
    now rewrite advance_real_S, E2.
Qed.

(** The forces of one pass cancel: for bodies at pairwise distinct
    positions the force solver returns, and the forces it assigns add up
    to the zero vector. *)
Theorem forces_cancel (objects : list Body) :
  distinct_positions objects ->
  exists objs,
    calculate_forces_real objects = Some objs /\
    vsum (map force objs) = zeros.
Proof.
  intros Hd. rewrite calculate_forces_real_distinct by exact Hd.
  destruct (calculate_forces_accumulated objects) as (objs & E & _).
  exists objs. split; [exact E |]. exact (calculate_forces_total _ _ E).
Qed.

(** The hypothesis of [forces_cancel] holds of the four bodies the
    program starts with. *)
Lemma forces_cancel_witness :
  distinct_positions (objects MainWidget_init) /\
  exists objs,
    calculate_forces_real (objects MainWidget_init) = Some objs /\
    vsum (map force objs) = zeros.
Proof.
  split; [exact MainWidget_init_distinct |].
  exact (forces_cancel (objects MainWidget_init) MainWidget_init_distinct).
Defined.
